(** * SBP log zipper: a model of [piksi_tools/ardupilot/sbp_log_zipper.py]

    The zipper merges a base and a rover log of SBP messages into one stream
    ordered by GPS time.  This development embeds the timestamp extraction,
    the two comparators, the merge loop of [zip_json_generators] and the log
    splitter of [main], and states the properties of the specification over
    that embedding. *)

From Equations Require Import Equations.
From Stdlib Require Import List Bool Arith NArith ZArith QArith Lia Sorted Permutation String.
From Stdlib Require Import Qround Qpower Qabs.
From Stdlib Require SpecFloat.
From Stdlib Require Import Ascii.
Import ListNotations.

Local Open Scope N_scope.

(** ** Data model *)

(** A GPS time is the tuple [(wn, tow)].  Both components are decoded from
    unsigned fields of the wire format (u16 week number, u32 time of week),
    hence naturals. *)
Definition GpsTime : Type := (N * N)%type.

Definition wn (g : GpsTime) : N := fst g.
Definition tow (g : GpsTime) : N := snd g.

(** Modelled from the spec: the decoded message classes live in the [sbp]
    library, outside this repository.  Following section 3 of the
    specification a message is a kind-tagged record with an originator and
    kind-specific time fields; the three field paths read by
    [extract_gpstime] are kept as three fields ([msg.header.t],
    [msg.common.toe], [msg.t_nmct]); a kind reads only its own path. *)
Record Msg : Type := mkMsg {
  msg_type   : N;
  sender     : N;
  header_t   : GpsTime;
  common_toe : GpsTime;
  t_nmct     : GpsTime
}.

(** [base_msg.sender = 0] and friends: attribute assignment. *)
Definition set_sender (m : Msg) (s : N) : Msg :=
  mkMsg (msg_type m) s (header_t m) (common_toe m) (t_nmct m).

(** Modelled from the spec: the message identifiers [ob.SBP_MSG_*] are
    constants of [sbp.observation], outside this repository; the
    specification only says that the kinds are a fixed enumeration.  They
    are given their numeric tags of the SBP protocol.  What matters below is
    that they are pairwise distinct and that [SBP_MSG_GLO_BIASES] is not
    zero. *)
Module ob.
Definition SBP_MSG_OBS                  : N := 0x004A.
Definition SBP_MSG_OSR                  : N := 0x0640.
Definition SBP_MSG_BASE_POS_LLH         : N := 0x0044.
Definition SBP_MSG_BASE_POS_ECEF        : N := 0x0048.
Definition SBP_MSG_EPHEMERIS_GPS_DEP_E  : N := 0x0081.
Definition SBP_MSG_EPHEMERIS_GPS_DEP_F  : N := 0x0086.
Definition SBP_MSG_EPHEMERIS_GPS        : N := 0x008A.
Definition SBP_MSG_EPHEMERIS_QZSS       : N := 0x008E.
Definition SBP_MSG_EPHEMERIS_BDS        : N := 0x0089.
Definition SBP_MSG_EPHEMERIS_GAL        : N := 0x008D.
Definition SBP_MSG_EPHEMERIS_SBAS_DEP_A : N := 0x0082.
Definition SBP_MSG_EPHEMERIS_GLO_DEP_A  : N := 0x0083.
Definition SBP_MSG_EPHEMERIS_SBAS_DEP_B : N := 0x0084.
Definition SBP_MSG_EPHEMERIS_SBAS       : N := 0x008C.
Definition SBP_MSG_EPHEMERIS_GLO_DEP_B  : N := 0x0085.
Definition SBP_MSG_EPHEMERIS_GLO_DEP_C  : N := 0x0087.
Definition SBP_MSG_EPHEMERIS_GLO_DEP_D  : N := 0x0088.
Definition SBP_MSG_EPHEMERIS_GLO        : N := 0x008B.
Definition SBP_MSG_EPHEMERIS_DEP_D      : N := 0x0080.
Definition SBP_MSG_EPHEMERIS_DEP_A      : N := 0x001A.
Definition SBP_MSG_EPHEMERIS_DEP_B      : N := 0x0046.
Definition SBP_MSG_EPHEMERIS_DEP_C      : N := 0x0047.
Definition SBP_MSG_IONO                 : N := 0x0090.
Definition SBP_MSG_GLO_BIASES           : N := 0x0075.
End ob.

(** Python's [x in l] on a list of integers. *)
Definition py_in (x : N) (l : list N) : bool := existsb (N.eqb x) l.

(** Python's truth value of an integer. *)
Definition truthy (n : N) : bool := negb (n =? 0).

Definition msgs_filter : list N := [
    ob.SBP_MSG_OBS;
    ob.SBP_MSG_OSR;
    ob.SBP_MSG_EPHEMERIS_GPS;
    ob.SBP_MSG_EPHEMERIS_GPS_DEP_E;
    ob.SBP_MSG_EPHEMERIS_GPS_DEP_F;
    ob.SBP_MSG_EPHEMERIS_BDS;
    ob.SBP_MSG_EPHEMERIS_GAL;
    ob.SBP_MSG_EPHEMERIS_SBAS_DEP_A;
    ob.SBP_MSG_EPHEMERIS_GLO_DEP_A;
    ob.SBP_MSG_EPHEMERIS_SBAS_DEP_B;
    ob.SBP_MSG_EPHEMERIS_SBAS;
    ob.SBP_MSG_EPHEMERIS_GLO_DEP_B;
    ob.SBP_MSG_EPHEMERIS_GLO_DEP_C;
    ob.SBP_MSG_EPHEMERIS_GLO_DEP_D;
    ob.SBP_MSG_EPHEMERIS_GLO;
    ob.SBP_MSG_EPHEMERIS_DEP_D;
    ob.SBP_MSG_EPHEMERIS_DEP_A;
    ob.SBP_MSG_EPHEMERIS_DEP_B;
    ob.SBP_MSG_EPHEMERIS_DEP_C;
    ob.SBP_MSG_BASE_POS_LLH;
    ob.SBP_MSG_BASE_POS_ECEF;
    ob.SBP_MSG_IONO;
    ob.SBP_MSG_GLO_BIASES
  ].

Definition msgs_filter_eph : list N := [
    ob.SBP_MSG_EPHEMERIS_GPS;
    ob.SBP_MSG_EPHEMERIS_GPS_DEP_E;
    ob.SBP_MSG_EPHEMERIS_GPS_DEP_F;
    ob.SBP_MSG_EPHEMERIS_BDS;
    ob.SBP_MSG_EPHEMERIS_GAL;
    ob.SBP_MSG_EPHEMERIS_SBAS;
    ob.SBP_MSG_EPHEMERIS_SBAS_DEP_A;
    ob.SBP_MSG_EPHEMERIS_SBAS_DEP_B;
    ob.SBP_MSG_EPHEMERIS_QZSS;
    ob.SBP_MSG_EPHEMERIS_GLO;
    ob.SBP_MSG_EPHEMERIS_GLO_DEP_A;
    ob.SBP_MSG_EPHEMERIS_GLO_DEP_B;
    ob.SBP_MSG_EPHEMERIS_GLO_DEP_C;
    ob.SBP_MSG_EPHEMERIS_GLO_DEP_D;
    ob.SBP_MSG_EPHEMERIS_DEP_A;
    ob.SBP_MSG_EPHEMERIS_DEP_B;
    ob.SBP_MSG_EPHEMERIS_DEP_C;
    ob.SBP_MSG_EPHEMERIS_DEP_D
  ].

(** ** Timestamp extraction *)

(** [extract_gpstime(msg, last_gpstime)].  The chain of [if]/[elif] has no
    [else]: falling off its end returns Python's [None], here [None].  The
    last condition is the source's
    [msg_type == BASE_POS_ECEF or msg_type == BASE_POS_LLH or SBP_MSG_GLO_BIASES],
    whose third disjunct is the constant itself. *)
Definition extract_gpstime (msg : Msg) (last_gpstime : GpsTime) : option GpsTime :=
  if (msg_type msg =? ob.SBP_MSG_OBS) || (msg_type msg =? ob.SBP_MSG_OSR) then
    Some (header_t msg)
  else if py_in (msg_type msg) msgs_filter_eph then
    Some (common_toe msg)
  else if msg_type msg =? ob.SBP_MSG_IONO then
    Some (t_nmct msg)
  else if (msg_type msg =? ob.SBP_MSG_BASE_POS_ECEF)
          || (msg_type msg =? ob.SBP_MSG_BASE_POS_LLH)
          || truthy ob.SBP_MSG_GLO_BIASES then
    Some last_gpstime
  else
    None.

(** ** Python numbers *)

Section Binary64.

Local Open Scope Q_scope.

(** A Python [float] is an IEEE 754 binary64 value: a finite value, an
    infinity or a NaN.  A finite value is kept as the rational it denotes;
    the sign of a zero is not kept, no operation below depends on it. *)
Inductive float : Type :=
| nan
| inf (negative : bool)
| finite (value : Q).

(** [floor (log2 x)] for a positive rational. *)
Definition Qlog2 (x : Q) : Z :=
  let k := (Z.log2 (Qnum x) - Z.log2 (Zpos (Qden x)))%Z in
  if Qle_bool (2 ^ k) x then k else (k - 1)%Z.

(** The exponent of the unit in the last place of the binary64 values
    around [x]: 53 bits of precision, subnormals below [2^-1022]. *)
Definition ulp_exponent (x : Q) : Z := Z.max (Qlog2 (Qabs x) - 52) (-1074).

(** The nearest integer, a tie going to the even one. *)
Definition nearest_even (x : Q) : Z :=
  let f := Qfloor x in
  match Qcompare (x - inject_Z f) (1 # 2) with
  | Lt => f
  | Gt => (f + 1)%Z
  | Eq => if Z.even f then f else (f + 1)%Z
  end.

(** The multiple of the unit in the last place that is nearest to [x]. *)
Definition nearest (x : Q) : Q :=
  inject_Z (nearest_even (x / 2 ^ ulp_exponent x)) * 2 ^ ulp_exponent x.

(** Rounding to binary64 in the default mode (to nearest, ties to even):
    the result of every arithmetic operation on floats is the rounding of
    the exact result; what reaches [2^1024] overflows to an infinity. *)
Definition round64 (x : Q) : float :=
  if Qle_bool (2 ^ 1024) (Qabs (nearest x)) then inf (Qnum x <? 0)%Z
  else finite (Qred (nearest x)).

(** [a + b] on floats. *)
Definition fadd (a b : float) : float :=
  match a, b with
  | nan, _ | _, nan => nan
  | inf s, inf s' => if Bool.eqb s s' then inf s else nan
  | inf s, finite _ | finite _, inf s => inf s
  | finite x, finite y => round64 (x + y)
  end.

(** The conversion of an [int] operand of a float operation: the nearest
    float.  It is exact below [2^53], hence on every value of the 32-bit
    field a time of week is decoded from.  Beyond the range of binary64
    (about [1.8e308]) Python raises [OverflowError] where this gives an
    infinity; no value of the field comes near. *)
Definition float_of_int (n : Z) : float := round64 (inject_Z n).

(** [n >= f] for an [int] and a [float]: Python compares the two values
    exactly; a comparison with a NaN is false. *)
Definition int_ge_float (n : Z) (f : float) : bool :=
  match f with
  | nan => false
  | inf negative => negative
  | finite y => Qle_bool y (inject_Z n)
  end.

(** [f <= n] as a proposition. *)
Definition float_le_int (f : float) (n : Z) : Prop :=
  match f with
  | nan => False
  | inf negative => negative = true
  | finite y => y <= inject_Z n
  end.

(** The value of [brate]: [zip_json_generators] adds it to an [int] and
    compares the sum with an [int], whatever number it is.  Arithmetic is
    exact on an [int] (or a [fractions.Fraction]), and rounded on a
    [float], which is what [main] passes. *)
Inductive number : Type :=
| Exact (q : Q)
| Float (f : float).

(** [n + brate] for an [int] [n]. *)
Definition py_add (n : N) (brate : number) : number :=
  match brate with
  | Exact q => Exact (inject_Z (Z.of_N n) + q)
  | Float f => Float (fadd (float_of_int (Z.of_N n)) f)
  end.

(** [n >= x] for an [int] [n]. *)
Definition py_ge (n : N) (x : number) : bool :=
  match x with
  | Exact q => Qle_bool q (inject_Z (Z.of_N n))
  | Float f => int_ge_float (Z.of_N n) f
  end.

(** [float(x)] for an [int] or a decimal numeral [x] of value [q], as
    [main] applies it to [args.brate[0]]: the nearest float. *)
Definition float_of_decimal (q : Q) : float := round64 q.

(** [1000 / float(args.brate[0])] in [main]: the quotient of two floats,
    rounded; a zero divisor raises [ZeroDivisionError], here [None]. *)
Definition main_brate (rate : float) : option number :=
  match rate with
  | nan => Some (Float nan)
  | inf _ => Some (Float (finite 0))
  | finite r =>
      if Qeq_bool r 0 then None else Some (Float (round64 (1000 / r)))
  end.

End Binary64.

(** The same value in the representation of the Standard Library's
    specification of IEEE 754 ([SpecFloat]), for the comparison of
    [round64] and [fadd] with it. *)
Definition of_spec_float (f : SpecFloat.spec_float) : float :=
  match f with
  | SpecFloat.S754_zero _ => finite 0
  | SpecFloat.S754_infinity s => inf s
  | SpecFloat.S754_nan => nan
  | SpecFloat.S754_finite s m e =>
      finite (Qred (inject_Z (if s then Zneg m else Zpos m) * 2 ^ e))
  end.

Definition float_eqb (a b : float) : bool :=
  match a, b with
  | nan, nan => true
  | inf s, inf s' => Bool.eqb s s'
  | finite x, finite y => Qeq_bool x y
  | _, _ => false
  end.

(** Numbers [m * 2^e] around the places where rounding is delicate: ties,
    the first integers that are not floats, subnormals, the overflow
    threshold. *)
Definition rounding_samples : list (Z * Z) :=
  [(1, 0); (3, 0); (2 ^ 53, 0); (2 ^ 53 + 1, 0); (2 ^ 53 + 3, 0);
   (2 ^ 54 + 2, 0); (2 ^ 54 + 6, 0); (2 ^ 55 + 5, 0);
   (4503599627370497, -52); (9007199254740993, -52); (18014398509481987, -53);
   (1, -1074); (1, -1075); (3, -1075); (3, -1076); (5, -1076);
   (2 ^ 53 - 1, -1075); (2 ^ 54 - 1, -1076); (2 ^ 52 + 1, -1127);
   (2 ^ 53 - 1, 971); (2 ^ 54 - 1, 970); (2 ^ 54 - 2, 970); (2 ^ 55 - 3, 969);
   (1, 1023); (1, 1024); (1, 2000); (0, 0);
   (-1, 0); (-3, -1075); (- (2 ^ 53 + 1), 0); (- (2 ^ 53 + 3), 0);
   (- (2 ^ 54 - 1), 970); (-1, 1024);
   (123456789123456789123456789, -40); (10 ^ 30 + 1, -1100)]%Z.

(** ** Comparators *)

(** [compare_gpstime(g0, g1)]: index of the earlier time. *)
Definition compare_gpstime (g0 g1 : GpsTime) : N :=
  if fst g0 <? fst g1 then 0
  else if fst g1 <? fst g0 then 1
  else if snd g0 <? snd g1 then 0
  else if snd g1 <? snd g0 then 1
  else 0.

(** [compare_gpstime_brate(g0, g1, brate)]. *)
Definition compare_gpstime_brate (g0 g1 : GpsTime) (brate : number) : N :=
  if fst g0 <? fst g1 then 0
  else if fst g1 <? fst g0 then 1
  else if snd g0 =? snd g1 then 1
  else if py_ge (snd g0) (py_add (snd g1) brate) then 1
  else 0.

#[global] Arguments py_in : simpl never.
#[global] Arguments truthy : simpl never.
#[global] Arguments extract_gpstime : simpl never.
#[global] Arguments compare_gpstime : simpl never.
#[global] Arguments compare_gpstime_brate : simpl never.

(** ** The merge loop of [zip_json_generators] *)

(** A generator is a finite sequence that is consumed from the front;
    [next] on the empty sequence raises [StopIteration].  The run of the
    zipper is observed as a trace: each call of [extract_gpstime] with the
    place it is made from, each call of [emit_fn], and an uncaught
    [TypeError] (a [None] time handed to a comparator), which ends the run. *)
Inductive call_site : Type :=
| BasePull      (* base_gpstime = extract_gpstime(base_msg, last_gpstime) *)
| MergeBase     (* base_time = extract_gpstime(base_msg, last_gpstime) *)
| MergeRove.    (* rove_time = extract_gpstime(rove_msg, last_gpstime) *)

Inductive event : Type :=
| Extract (site : call_site) (msg : Msg)
| Emit (msg : Msg)
| TypeError.

(** Outcome of one of the two inner [while ... is None] loops. *)
Inductive pulled : Type :=
| Got (msg : Msg)     (* left through [break] with a message in the slot *)
| Exhausted           (* StopIteration: the slot stays [None] *)
| Raised.             (* an exception other than StopIteration escaped *)

(** The base-side loop [while base_msg is None].  Returns the trace, the
    outcome, the new [last_base_gpstime] and the rest of the generator. *)
Fixpoint pull_base (brate : number) (last_gpstime last_base_gpstime : GpsTime)
    (base_gen : list Msg) : list event * pulled * GpsTime * list Msg :=
  match base_gen with
  | [] => ([], Exhausted, last_base_gpstime, [])
  | base_msg :: base_gen' =>
      match extract_gpstime base_msg last_gpstime with
      | Some base_gpstime =>
          if py_in (msg_type base_msg) msgs_filter
             && truthy (compare_gpstime_brate base_gpstime last_base_gpstime brate)
          then ([Extract BasePull base_msg],
                Got (set_sender base_msg 0), base_gpstime, base_gen')
          else
            let '(evs, r, lb, g) :=
              pull_base brate last_gpstime last_base_gpstime base_gen' in
            (Extract BasePull base_msg :: evs, r, lb, g)
      | None =>
          if py_in (msg_type base_msg) msgs_filter
          then ([Extract BasePull base_msg; TypeError],
                Raised, last_base_gpstime, base_gen')
          else
            let '(evs, r, lb, g) :=
              pull_base brate last_gpstime last_base_gpstime base_gen' in
            (Extract BasePull base_msg :: evs, r, lb, g)
      end
  end.

(** The rover-side loop [while rove_msg is None]. *)
Fixpoint pull_rove (rove_gen : list Msg) : option Msg * list Msg :=
  match rove_gen with
  | [] => (None, [])
  | rove_msg :: rove_gen' =>
      if truthy (sender rove_msg) && py_in (msg_type rove_msg) msgs_filter
      then (Some rove_msg, rove_gen')
      else pull_rove rove_gen'
  end.

(** The local variables of [zip_json_generators] at the head of
    [while True]. *)
Record zstate : Type := mkState {
  base_gen          : list Msg;
  rove_gen          : list Msg;
  base_msg          : option Msg;
  rove_msg          : option Msg;
  last_gpstime      : GpsTime;
  last_base_gpstime : GpsTime
}.

(** [# Get a base_msg if we don't have one waiting]: the inner loop is
    entered only when the slot is empty. *)
Definition fill_base (brate : number) (st : zstate)
  : list event * pulled * GpsTime * list Msg :=
  match base_msg st with
  | Some m => ([], Got m, last_base_gpstime st, base_gen st)
  | None => pull_base brate (last_gpstime st) (last_base_gpstime st) (base_gen st)
  end.

(** [# Get a rove_msg if we don't have one waiting]. *)
Definition fill_rove (st : zstate) : option Msg * list Msg :=
  match rove_msg st with
  | Some m => (Some m, rove_gen st)
  | None => pull_rove (rove_gen st)
  end.

(** One iteration of [while True]: its trace and the state at the next
    iteration, or [None] when the function is left ([return], or an
    exception). *)
Definition zip_step (brate : number) (st : zstate) : list event * option zstate :=
  let '(evs, b, lb, bg) := fill_base brate st in
  let '(r, rg) := fill_rove st in
  match b, r with
  | Raised, _ => (evs, None)
  | Exhausted, None => (evs, None)                      (* We are done. *)
  | Exhausted, Some rm =>
      (evs ++ [Emit rm], Some (mkState bg rg None None (last_gpstime st) lb))
  | Got bm, None =>
      (evs ++ [Emit bm], Some (mkState bg rg None None (last_gpstime st) lb))
  | Got bm, Some rm =>
      (* We have a message from both. Which one do we emit? *)
      let calls := [Extract MergeBase bm; Extract MergeRove rm] in
      match extract_gpstime bm (last_gpstime st),
            extract_gpstime rm (last_gpstime st) with
      | Some base_time, Some rove_time =>
          if compare_gpstime rove_time base_time =? 1
          then (evs ++ calls ++ [Emit bm],
                Some (mkState bg rg None (Some rm) base_time lb))
          else (evs ++ calls ++ [Emit rm],
                Some (mkState bg rg (Some bm) None rove_time lb))
      | _, _ => (evs ++ calls ++ [TypeError], None)
      end
  end.

(** Messages still to be emitted or read: it decreases at each iteration. *)
Definition occupied (slot : option Msg) : nat :=
  match slot with Some _ => 1 | None => 0 end.

Definition got (p : pulled) : nat :=
  match p with Got _ => 1 | _ => 0 end.

Definition pending (st : zstate) : nat :=
  (List.length (base_gen st) + List.length (rove_gen st)
   + occupied (base_msg st) + occupied (rove_msg st))%nat.

(** Case analysis on a value that keeps the equation, for the definition
    below. *)
Definition inspect {A : Type} (a : A) : {b : A | a = b} := exist _ a eq_refl.

(** [while True]: iterate the body until the function is left.  The loop
    ends because each iteration that goes on has emitted one message:
    [pending] decreases. *)
Equations? zip_loop (brate : number) (st : zstate) : list event
  by wf (pending st) lt :=
zip_loop brate st with inspect (zip_step brate st) := {
  | exist _ (evs, None) _ := evs
  | exist _ (evs, Some st') H := evs ++ zip_loop brate st' }.
Proof.
  assert (Hpb : forall L LB gen e b lb g,
             pull_base brate L LB gen = (e, b, lb, g) ->
             (List.length g + got b <= List.length gen)%nat).
  { intros L LB gen. induction gen as [|m gen IH]; intros e b lb g; simpl.
    - intros [= <- <- <- <-]. simpl. lia.
    - destruct (extract_gpstime m L) as [t|];
        (destruct (py_in (msg_type m) msgs_filter && _)
         || destruct (py_in (msg_type m) msgs_filter));
        try (intros [= <- <- <- <-]; simpl; lia);
        destruct (pull_base brate L LB gen) as [[[e1 b1] l1] g1];
        intros [= <- <- <- <-]; specialize (IH _ _ _ _ eq_refl); lia. }
  assert (Hpr : forall gen r g,
             pull_rove gen = (r, g) ->
             (List.length g + occupied r <= List.length gen)%nat).
  { intros gen. induction gen as [|m gen IH]; intros r g; simpl.
    - intros [= <- <-]. simpl. lia.
    - destruct (truthy (sender m) && _).
      + intros [= <- <-]. simpl. lia.
      + intros Hg. specialize (IH _ _ Hg). lia. }
  clear zip_loop. unfold zip_step, fill_base, fill_rove, pending in *.
  destruct st as [bg rg bm rm L LB]; simpl in *.
  destruct bm as [bm|];
    [|destruct (pull_base brate L LB bg) as [[[e b] lb] g] eqn:Hb;
      apply Hpb in Hb; destruct b as [bm| |]; try discriminate];
    (destruct rm as [rm|];
     [|destruct (pull_rove rg) as [r g'] eqn:Hr; apply Hpr in Hr;
       destruct r as [rm|]]);
    try discriminate;
    try (destruct (extract_gpstime bm L); [|discriminate];
         destruct (extract_gpstime rm L); [|discriminate];
         destruct (_ =? 1));
    injection H as <- <-; simpl in *; lia.
Qed.

(** The arguments of the calls of [emit_fn], in order. *)
Fixpoint emitted (tr : list event) : list Msg :=
  match tr with
  | [] => []
  | Emit m :: tr' => m :: emitted tr'
  | _ :: tr' => emitted tr'
  end.

(** [zip_json_generators(base_gen, rove_gen, emit_fn, brate)]: the state is
    initialised ([None], [None], [(0, 0)], [(0, 0)]) and the loop is run. *)
Definition zip_trace (base_gen rove_gen : list Msg) (brate : number) : list event :=
  zip_loop brate (mkState base_gen rove_gen None None (0, 0) (0, 0)).

Definition zip_json_generators (base_gen rove_gen : list Msg) (brate : number) : list Msg :=
  emitted (zip_trace base_gen rove_gen brate).

(** ** Order on GPS times and timestamp threading *)

(** Lexicographic order on [(wn, tow)]. *)
Definition gps_le (a b : GpsTime) : Prop :=
  fst a < fst b \/ (fst a = fst b /\ snd a <= snd b).

(** The time applicable to a message given the last known time: the result
    of [extract_gpstime].  The [None] branch is never taken
    ([extract_gpstime_defined] below). *)
Definition gpstime_of (m : Msg) (last : GpsTime) : GpsTime :=
  match extract_gpstime m last with
  | Some t => t
  | None => last
  end.

(** The extracted times of a sequence of messages under the fallback
    rule: the time of each message is extracted with the time of the message
    before it as last known time, [last] for the first one.  In the merge
    loop this is how [last_gpstime] moves while both slots are occupied
    ([last_gpstime = base_time] or [rove_time] after each emission). *)
Fixpoint thread_times (last : GpsTime) (l : list Msg) : list GpsTime :=
  match l with
  | [] => []
  | m :: l' => gpstime_of m last :: thread_times (gpstime_of m last) l'
  end.

(** [chained last l]: the threaded times of [l] never go back, starting
    from [last]. *)
Fixpoint chained (last : GpsTime) (l : list Msg) : Prop :=
  match l with
  | [] => True
  | m :: l' => gps_le last (gpstime_of m last) /\ chained (gpstime_of m last) l'
  end.

(** [thinned l' l]: [l'] is [l] with some messages removed, the others
    keeping their order and their times. *)
Inductive thinned : list Msg -> list Msg -> Prop :=
| thinned_nil : thinned [] []
| thinned_skip m l' l : thinned l' l -> thinned l' (m :: l)
| thinned_keep m' m l' l :
    (forall last, extract_gpstime m' last = extract_gpstime m last) ->
    thinned l' l -> thinned (m' :: l') (m :: l).

Definition slot (o : option Msg) : list Msg :=
  match o with Some m => [m] | None => [] end.

(** ** Specification-level views of the two sides *)

(** The rover-side acceptance test of the pull loop. *)
Definition rove_accepts (m : Msg) : bool :=
  truthy (sender m) && py_in (msg_type m) msgs_filter.

(** The base messages that pass the kind filter and the rate gate.  The
    gate compares the time of each message with the time of the last
    accepted one ([last_base]); [last] is the last known time handed to the
    extraction, which stays the same as long as the rover emits nothing. *)
Fixpoint base_passing (brate : number) (last last_base : GpsTime) (l : list Msg)
  : list Msg :=
  match l with
  | [] => []
  | m :: l' =>
      if py_in (msg_type m) msgs_filter
         && truthy (compare_gpstime_brate (gpstime_of m last) last_base brate)
      then m :: base_passing brate last (gpstime_of m last) l'
      else base_passing brate last last_base l'
  end.


Definition pass_through (m : Msg) : Prop :=
  py_in (msg_type m) msgs_filter = true.

(** ** Well-formedness of the trace *)

(** What the loop keeps in its two slots. *)
Definition slots_ok (st : zstate) : Prop :=
  (forall b, base_msg st = Some b -> pass_through b /\ sender b = 0) /\
  (forall r, rove_msg st = Some r -> rove_accepts r = true).

(** What a run may do: extraction in the base pull loop is on any message;
    at the merge comparison it is on accepted messages only; emitted
    messages are accepted ones; no comparison is handed an absent time. *)
Definition event_ok (e : event) : Prop :=
  match e with
  | Extract BasePull _ => True
  | Extract MergeBase m => pass_through m /\ sender m = 0
  | Extract MergeRove m => rove_accepts m = true
  | Emit m => pass_through m /\ (sender m = 0 \/ rove_accepts m = true)
  | TypeError => False
  end.

(** The messages on which the base pull loop called [extract_gpstime]. *)
Fixpoint base_pull_calls (tr : list event) : list Msg :=
  match tr with
  | [] => []
  | Extract BasePull m :: tr' => m :: base_pull_calls tr'
  | _ :: tr' => base_pull_calls tr'
  end.

(** ** The base side of the output *)

(** A message whose time does not depend on the last known time. *)
Definition self_timed (m : Msg) : Prop :=
  forall last, gpstime_of m last = gpstime_of m (0, 0).

(** ** The rate gate on a regular stream of observations *)

(** An observation message with time [(w, t)] and originator [s]. *)
Definition obs_msg (w t s : N) : Msg :=
  mkMsg ob.SBP_MSG_OBS s (w, t) (0, 0) (0, 0).

(** [n] observations of week [w] at [tow] = 5k, 5(k+1), ... *)
Definition obs_from (w s : N) (k n : nat) : list Msg :=
  map (fun i => obs_msg w (5 * N.of_nat i) s) (seq k n).

(** The base input of the rate-gating scenario: [tow] = 0, 5, 10, 15, ... *)
Definition obs_every5 (w s : N) (n : nat) : list Msg := obs_from w s 0 n.

Definition on_20_grid (m : Msg) : bool := snd (header_t m) mod 20 =? 0.

(** ** The log splitter of [main] *)

Definition newline : string := String (Ascii.ascii_of_nat 10) EmptyString.

Section Splitter.

(** [msg.to_json()], the serialisation of the [sbp] library. *)
Variable to_json : Msg -> string.

Definition record (msg : Msg) : string := (to_json msg ++ newline)%string.

(** The [while True] loop over [msg_gen]; a file opened with ['w+'] is
    the list of the strings written to it so far. *)
Fixpoint split_loop (msg_gen : list Msg) (base_log_file rover_log_file : list string)
  : list string * list string :=
  match msg_gen with
  | [] => (base_log_file, rover_log_file)
  | msg :: msg_gen' =>
      if sender msg =? 0
      then split_loop msg_gen' (base_log_file ++ [record msg]) rover_log_file
      else split_loop msg_gen' base_log_file (rover_log_file ++ [record msg])
  end.

Definition split_log (msg_gen : list Msg) : list string * list string :=
  split_loop msg_gen [] [].

End Splitter.

(** ** Sample messages *)

(** [0xFFFF] is the tag of the SBP heartbeat, a kind that
    occurs in every log and is in none of the sets of the zipper. *)
Definition heartbeat (s : N) : Msg := mkMsg 0xFFFF s (0, 0) (0, 0) (0, 0).
Definition glo_biases (s : N) : Msg :=
  mkMsg ob.SBP_MSG_GLO_BIASES s (0, 0) (0, 0) (0, 0).
Definition base_pos_llh (s : N) : Msg :=
  mkMsg ob.SBP_MSG_BASE_POS_LLH s (0, 0) (0, 0) (0, 0).
Definition ephemeris_qzss (s : N) (toe : GpsTime) : Msg :=
  mkMsg ob.SBP_MSG_EPHEMERIS_QZSS s (0, 0) toe (0, 0).

(** ** Views of the output used by the further properties *)

(** A message of a kind whose time is read from the message itself:
    observation, OSR, any ephemeris, ionosphere. *)
Definition timestamped (m : Msg) : bool :=
  (msg_type m =? ob.SBP_MSG_OBS) || (msg_type m =? ob.SBP_MSG_OSR)
  || py_in (msg_type m) msgs_filter_eph
  || (msg_type m =? ob.SBP_MSG_IONO).

(** [picked l' l]: [l'] is made of messages of [l] of pass-through kinds, in
    the order of [l], each taken at most once and with its originator set
    to 0. *)
Inductive picked : list Msg -> list Msg -> Prop :=
| picked_nil : picked [] []
| picked_skip m l' l : picked l' l -> picked l' (m :: l)
| picked_keep m l' l :
    pass_through m -> picked l' l -> picked (set_sender m 0 :: l') (m :: l).

(** A separation that is not positive. *)
Definition nonpositive (brate : number) : Prop :=
  match brate with
  | Exact q => (q <= 0)%Q
  | Float nan => False
  | Float (inf negative) => negative = true
  | Float (finite b) => (b <= 0)%Q
  end.

(** The times whose time of week an operation with [brate] takes as it is:
    any time for exact arithmetic, and the times of week below [2^53], which
    the conversion to a float keeps, for a float (a decoded time of week is
    below [2^32]). *)
Definition convertible (brate : number) (g : GpsTime) : Prop :=
  match brate with
  | Exact _ => True
  | Float _ => tow g < 2 ^ 53
  end.

(** A time, a message and a state of the loop whose times of week fit the
    32 bits they have in the wire format. *)
Definition small (g : GpsTime) : Prop := tow g < 2 ^ 32.

Definition wire (m : Msg) : Prop :=
  small (header_t m) /\ small (common_toe m) /\ small (t_nmct m).

Definition wire_state (st : zstate) : Prop :=
  small (last_gpstime st) /\ small (last_base_gpstime st) /\
  Forall wire (base_gen st) /\ Forall wire (rove_gen st) /\
  Forall wire (slot (base_msg st)) /\ Forall wire (slot (rove_msg st)).

(** [gated brate last_base l]: each message of [l] passes the rate gate
    against the message before it, the first one against [last_base]; the
    times are the messages' own. *)
Fixpoint gated (brate : number) (last_base : GpsTime) (l : list Msg) : Prop :=
  match l with
  | [] => True
  | m :: l' =>
      compare_gpstime_brate (gpstime_of m (0, 0)) last_base brate = 1 /\
      gated brate (gpstime_of m (0, 0)) l'
  end.

(** ** Regular expressions, as far as [main] uses them *)

(** A Python [str] is the list of its characters. *)
Definition str : Type := list ascii.

(** Python's [re] for the constructs that occur in
    [filepath_split_ext_regex]: a backtracking matcher that tries the
    alternatives in the order of the [re] module (a lazy star first tries to
    go on with the rest of the pattern, a greedy star first takes one more
    character). *)
Module re.

Definition LF : ascii := ascii_of_nat 10.

Inductive cclass : Type :=
| Dot                        (* [.]: any character but a newline *)
| NoneOf (cs : list ascii)   (* [[^...]] *)
| Lit (c : ascii).           (* an escaped literal character *)

Definition in_class (k : cclass) (c : ascii) : bool :=
  match k with
  | Dot => negb (Ascii.eqb c LF)
  | NoneOf cs => negb (existsb (Ascii.eqb c) cs)
  | Lit c' => Ascii.eqb c c'
  end.

Inductive item : Type :=
| BehindStart             (* [(?<=^)] *)
| One (k : cclass)
| StarLazy (k : cclass)   (* [k] any number of times, as few as possible *)
| StarGreedy (k : cclass) (* [k] any number of times, as many as possible *)
| GroupOpen               (* [(] *)
| GroupClose              (* [)] *)
| AheadEnd.               (* [(?=$)] *)

(** The spans of the capturing groups closed so far, in order, and the
    position where the match ends. *)
Definition captures : Type := list (nat * nat).
Definition outcome : Type := (nat * captures)%type.

(** [$] without [re.MULTILINE]: at the end of the string, or just before a
    newline that ends the string. *)
Definition at_end (s : str) : bool :=
  match s with
  | [] => true
  | [c] => Ascii.eqb c LF
  | _ => false
  end.

Fixpoint star_lazy (k : cclass) (rest : option ascii -> nat -> str -> option outcome)
    (prev : option ascii) (pos : nat) (s : str) {struct s} : option outcome :=
  match rest prev pos s with
  | Some r => Some r
  | None =>
      match s with
      | c :: s' => if in_class k c then star_lazy k rest (Some c) (S pos) s' else None
      | [] => None
      end
  end.

Fixpoint star_greedy (k : cclass) (rest : option ascii -> nat -> str -> option outcome)
    (prev : option ascii) (pos : nat) (s : str) {struct s} : option outcome :=
  match s with
  | c :: s' =>
      if in_class k c then
        match star_greedy k rest (Some c) (S pos) s' with
        | Some r => Some r
        | None => rest prev pos s
        end
      else rest prev pos s
  | [] => rest prev pos s
  end.

(** Match the pattern [p] at position [pos], [prev] being the character
    before it ([None] at the start of the string) and [s] the text from
    [pos] on. *)
Fixpoint run (p : list item) (opened : list nat) (caps : captures)
    (prev : option ascii) (pos : nat) (s : str) {struct p} : option outcome :=
  match p with
  | [] => Some (pos, caps)
  | BehindStart :: p' =>
      match prev with
      | None => run p' opened caps prev pos s
      | Some _ => None
      end
  | One k :: p' =>
      match s with
      | c :: s' => if in_class k c then run p' opened caps (Some c) (S pos) s' else None
      | [] => None
      end
  | StarLazy k :: p' => star_lazy k (run p' opened caps) prev pos s
  | StarGreedy k :: p' => star_greedy k (run p' opened caps) prev pos s
  | GroupOpen :: p' => run p' (pos :: opened) caps prev pos s
  | GroupClose :: p' =>
      match opened with
      | start :: opened' => run p' opened' (caps ++ [(start, pos)]) prev pos s
      | [] => None
      end
  | AheadEnd :: p' => if at_end s then run p' opened caps prev pos s else None
  end.

(** [re.search]: the first position, from the left, where the pattern
    matches; [None] when there is none. *)
Fixpoint search_at (p : list item) (prev : option ascii) (pos : nat) (s : str)
  : option outcome :=
  match run p [] [] prev pos s with
  | Some r => Some r
  | None =>
      match s with
      | c :: s' => search_at p (Some c) (S pos) s'
      | [] => None
      end
  end.

Definition search (p : list item) (s : str) : option outcome :=
  search_at p None 0%nat s.

(** [m.groups()]: the text of each group. *)
Definition groups (m : outcome) (s : str) : list str :=
  map (fun '(a, b) => firstn (b - a) (skipn a s)) (snd m).

End re.

(** ** File names in [main] *)

(** [filepath_split_ext_regex]: a look-behind for the start of the string;
    a first group, any characters but newlines, as few as possible; a
    second group, an escaped dot followed by as many characters other than
    a backslash and a slash as possible; a look-ahead for the end. *)
Definition filepath_split_ext_regex : list re.item :=
  [re.BehindStart;
   re.GroupOpen; re.StarLazy re.Dot; re.GroupClose;
   re.GroupOpen; re.One (re.Lit "."%char);
                 re.StarGreedy (re.NoneOf ["\"%char; "/"%char]); re.GroupClose;
   re.AheadEnd].

(** A path separator for the pattern: a backslash or a slash. *)
Definition is_sep (c : ascii) : bool :=
  existsb (Ascii.eqb c) ["\"%char; "/"%char].

(** [splits s stem ext]: [ext] starts at the first dot of [s] that has no
    separator after it, and no newline comes before that dot. *)
Definition splits (s stem ext : str) : Prop :=
  s = stem ++ ext /\
  (exists e, ext = "."%char :: e /\ Forall (fun c => is_sep c = false) e) /\
  ~ In re.LF stem /\
  (forall p q, stem = p ++ "."%char :: q -> Exists (fun c => is_sep c = true) q).

(** The split computed by the pattern, as a recursion on the path. *)
Fixpoint split_ext (s : str) : option (str * str) :=
  match s with
  | [] => None
  | c :: s' =>
      if Ascii.eqb c "."%char && forallb (fun x => negb (is_sep x)) s'
      then Some ([], s)
      else if Ascii.eqb c re.LF then None
      else match split_ext s' with
           | Some (stem, ext) => Some (c :: stem, ext)
           | None => None
           end
  end.

Inductive py_exception : Type :=
| AttributeError.

(** The names of the files [main] works on. *)
Record log_names : Type := mkNames {
  base_log     : str;
  rover_log    : str;
  zip_filename : option str   (* [None]: the output goes to the console *)
}.

(** The names computed by [main] from [args.rover_log], [args.base[0]]
    and [args.output[0]] ([None] for the default [0]), or the exception that
    ends it.  [split.groups()] on a failed search is an [AttributeError],
    and so is [args.base_log]: the parser defines [args.base] only. *)
Definition main_names (args_rover_log args_base : str) (args_output : option str)
  : py_exception + log_names :=
  let split := re.search filepath_split_ext_regex args_rover_log in
  let groups i :=
    match split with
    | Some m => Some (nth i (re.groups m args_rover_log) [])
    | None => None
    end in
  match args_base with
  | [] =>
      match groups 0%nat, groups 1%nat with
      | Some stem, Some ext =>
          let base_log := stem ++ list_ascii_of_string "_base" ++ ext in
          let rover_log := stem ++ list_ascii_of_string "_rover" ++ ext in
          match args_output with
          | Some (_ :: _) =>
              inr (mkNames base_log rover_log
                     (Some (stem ++ list_ascii_of_string "_zip" ++ ext)))
          | _ => inr (mkNames base_log rover_log None)
          end
      | _, _ => inl AttributeError
      end
  | _ :: _ => inl AttributeError
  end.

(** ** The log manager: [piksi_tools/log_manager.py] *)

Module log_manager.

(** Python's [s.split(sep)] for a separator of one character: the pieces
    between the separators, never an empty list. *)
Fixpoint split (s : str) (sep : ascii) : list str :=
  match s with
  | [] => [[]]
  | c :: s' =>
      if Ascii.eqb c sep then [] :: split s' sep
      else match split s' sep with
           | w :: ws => (c :: w) :: ws
           | [] => [[c]]
           end
  end.

(** [==] on two strings. *)
Fixpoint str_eqb (a b : str) : bool :=
  match a, b with
  | [], [] => true
  | x :: a', y :: b' => Ascii.eqb x y && str_eqb a' b'
  | _, _ => false
  end.

(** [f.split('.')[-1] == 'sbp'], the test of the three functions. *)
Definition is_sbp (f : str) : bool :=
  str_eqb (last (split f "."%char) []) (list_ascii_of_string "sbp").

(** The loop [for f in ...: if ...: sbp_files.append(f)]. *)
Fixpoint sbp_loop (fs : list str) (sbp_files : list str) : list str :=
  match fs with
  | [] => sbp_files
  | f :: fs' =>
      if is_sbp f then sbp_loop fs' (sbp_files ++ [f]) else sbp_loop fs' sbp_files
  end.

(** What a run does to the console, to the device and to local files.  A
    printed line is kept as its format and the values put in it. *)
Inductive io : Type :=
| PrintDownload (sbp_files : list str) (log_path : str) (* Download %s in %s *)
| PrintDownloading (f : str) (index total : N)      (* Downloading %s... (%d/%d) *)
| PrintRemove (sbp_files : list str) (log_path : str)   (* Remove %s in %s *)
| PrintRemoving (f : str) (index total : N)         (* Removing %s... (%d/%d) *)
| PrintFilesIn (log_path : str)                     (* SBP files in %s: *)
| PrintList (sbp_files : list str)                  (* print(sbp_files) *)
| PrintDone                                         (* Done *)
| Readdir (path : str)                              (* fileio_link.readdir *)
| Read (path : str)                                 (* fileio_link.read *)
| Remove (path : str)                               (* fileio_link.remove *)
| OpenWb (path : str)                               (* open(path, "wb+") *)
| Write (path : str) (data : str).                  (* log.write(data) *)

Section Device.

(** The characters that [str.strip()] removes. *)
Variable isspace : ascii -> bool.

(** [ast.literal_eval] on the text of a list of strings; [None] when it
    raises. *)
Variable literal_eval : str -> option (list str).

(** Python's [str] on a list of strings. *)
Variable str_of_list : list str -> str.

(** The answers of the device to [readdir] and [read]. *)
Variable readdir : str -> list str.
Variable read : str -> str.

Fixpoint lstrip (s : str) : str :=
  match s with
  | c :: s' => if isspace c then lstrip s' else s
  | [] => []
  end.

Definition strip (s : str) : str := rev (lstrip (rev (lstrip s))).

Definition slash : str := ["/"%char].

(** The second loop of [download]. *)
Fixpoint download_loop (log_path dest_path : str) (sbp_files : list str)
    (index total : N) : list io :=
  match sbp_files with
  | [] => []
  | f :: sbp_files' =>
      [OpenWb (dest_path ++ slash ++ f);
       PrintDownloading f index total;
       Read (log_path ++ f);
       Write (dest_path ++ slash ++ f) (read (log_path ++ f))]
      ++ download_loop log_path dest_path sbp_files' (index + 1) total
  end.

Definition download (log_path log_list dest_path : str) : option (list io) :=
  match literal_eval log_list with
  | None => None
  | Some log_list =>
      let logs := map strip log_list in
      let sbp_files := sbp_loop logs [] in
      Some ([PrintDownload sbp_files log_path]
            ++ download_loop log_path dest_path sbp_files 1
                 (N.of_nat (List.length sbp_files))
            ++ [PrintDone])
  end.

(** [list]: what it does and the string it returns. *)
Definition list_ (log_path : str) : list io * str :=
  let files := readdir log_path in
  let sbp_files := sbp_loop files [] in
  ([PrintFilesIn log_path; Readdir log_path; PrintList sbp_files],
   str_of_list sbp_files).

(** The second loop of [remove]. *)
Fixpoint remove_loop (log_path : str) (sbp_files : list str) (index total : N)
  : list io :=
  match sbp_files with
  | [] => []
  | f :: sbp_files' =>
      [PrintRemoving f index total; Remove (log_path ++ slash ++ f)]
      ++ remove_loop log_path sbp_files' (index + 1) total
  end.

Definition remove (log_path log_list : str) : option (list io) :=
  match literal_eval log_list with
  | None => None
  | Some log_list =>
      let logs := map strip log_list in
      let sbp_files := sbp_loop logs [] in
      Some ([PrintRemove sbp_files log_path]
            ++ remove_loop log_path sbp_files 1 (N.of_nat (List.length sbp_files))
            ++ [PrintDone])
  end.

(** The dispatch of [main] on [args.command], [log_path] being the
    directory read from the settings of the device; [None] when an
    exception ends it. *)
Definition main (log_path command args_list args_dest : str) : option (list io) :=
  if str_eqb command (list_ascii_of_string "download") then
    if str_eqb args_list (list_ascii_of_string "all") then
      let '(evs, listing) := list_ log_path in
      option_map (app evs) (download log_path listing args_dest)
    else download log_path args_list args_dest
  else if str_eqb command (list_ascii_of_string "remove") then
    if str_eqb args_list (list_ascii_of_string "all") then
      let '(evs, listing) := list_ log_path in
      option_map (app evs) (remove log_path listing)
    else remove log_path args_list
  else if str_eqb command (list_ascii_of_string "list") then
    Some (fst (list_ log_path))
  else Some [].

End Device.

(** The device paths removed, the device paths read, the local files
    written with their contents, and the progress counters printed. *)
Definition removed (evs : list io) : list str :=
  flat_map (fun e => match e with Remove p => [p] | _ => [] end) evs.

Definition reads (evs : list io) : list str :=
  flat_map (fun e => match e with Read p => [p] | _ => [] end) evs.

Definition written (evs : list io) : list (str * str) :=
  flat_map (fun e => match e with Write p d => [(p, d)] | _ => [] end) evs.

Definition progress (evs : list io) : list (N * N) :=
  flat_map (fun e => match e with
                     | PrintDownloading _ i t | PrintRemoving _ i t => [(i, t)]
                     | _ => []
                     end) evs.

End log_manager.

(** ** A sample device *)

(** The white space that [str.strip()] removes, among the characters with a
    code below 256: tab, line feed, vertical tab, form feed, carriage return
    (9 to 13), the four separators 28 to 31, the space, the next-line
    character 133 and the no-break space 160. *)
Definition py_isspace (c : ascii) : bool :=
  existsb (Ascii.eqb c)
    ["009"%char; "010"%char; "011"%char; "012"%char; "013"%char;
     "028"%char; "029"%char; "030"%char; "031"%char; " "%char;
     "133"%char; "160"%char].

Definition sample_directory : list str :=
  map list_ascii_of_string
    ["0001-00000.sbp"; "notes.txt"; " 0001-00010.sbp"; "sbp"; "0002.sbp.bak"]%string
  ++ ["031"%char :: "160"%char :: list_ascii_of_string "0001-00020.sbp"].

(** * Properties of the model *)

(** ** Reasoning principles for the loop *)

Lemma zip_loop_step brate st :
  zip_loop brate st =
  match zip_step brate st with
  | (evs, None) => evs
  | (evs, Some st') => evs ++ zip_loop brate st'
  end.
Proof.
  funelim (zip_loop brate st);
    match goal with E : zip_step _ _ = _ |- _ => rewrite E end; reflexivity.
Qed.

(** Induction along the iterations of the loop. *)
Lemma zip_loop_ind (brate : number) (P : zstate -> Prop) :
  (forall st,
      (forall evs st', zip_step brate st = (evs, Some st') -> P st') -> P st) ->
  forall st, P st.
Proof.
  intros step st. funelim (zip_loop brate st); apply step;
    match goal with E : zip_step _ _ = _ |- _ => rewrite E end;
    intros evs0 st0 E0; [|discriminate].
  injection E0 as <- <-.
  match goal with IH : forall Q : zstate -> Prop, _ |- _ => apply IH end.
  exact step.
Qed.

(** One iteration further: unfold the loop once, name the equation of the
    step [E], and keep the induction hypothesis [IH] for the next state
    when there is one. *)
Ltac loop_step IH E :=
  rewrite zip_loop_step;
  destruct (zip_step _ _) as [? [?|]] eqn:E;
  [specialize (IH _ _ eq_refl) | clear IH].

Lemma emitted_app tr1 tr2 : emitted (tr1 ++ tr2) = emitted tr1 ++ emitted tr2.
Proof.
  induction tr1 as [|[site m|m|] tr1 IH]; simpl; rewrite ?IH; reflexivity.
Qed.

(** ** The order on GPS times and the threading of times *)

Lemma gps_le_refl a : gps_le a a.
Proof. unfold gps_le. right. split; [reflexivity | lia]. Qed.

Lemma gps_le_trans a b c : gps_le a b -> gps_le b c -> gps_le a c.
Proof. unfold gps_le. lia. Qed.

Lemma gps_le_zero a : gps_le (0, 0) a.
Proof. unfold gps_le. simpl. lia. Qed.

Create HintDb zipper.
#[local] Hint Resolve gps_le_refl gps_le_zero : zipper.

Lemma compare_gpstime_le a b : compare_gpstime a b = 0 <-> gps_le a b.
Proof.
  unfold compare_gpstime, gps_le.
  destruct (N.ltb_spec (fst a) (fst b)); [intuition lia|].
  destruct (N.ltb_spec (fst b) (fst a)); [intuition lia|].
  destruct (N.ltb_spec (snd a) (snd b)); [intuition lia|].
  destruct (N.ltb_spec (snd b) (snd a)); intuition lia.
Qed.

(** The identifiers used by the zipper are pairwise distinct, and the one
    that [extract_gpstime] uses as a condition is not zero. *)
Lemma kinds_distinct :
  NoDup (ob.SBP_MSG_EPHEMERIS_QZSS :: msgs_filter) /\
  truthy ob.SBP_MSG_GLO_BIASES = true.
Proof.
  split; [|reflexivity].
  unfold msgs_filter.
  repeat (constructor;
          [simpl; intros H;
           repeat (destruct H as [H|H]; [discriminate H|]); contradiction|]).
  constructor.
Qed.

(** Every message has a time: the last branch of [extract_gpstime] is taken
    whenever the earlier ones are not. *)
Lemma extract_gpstime_defined m last :
  extract_gpstime m last = Some (gpstime_of m last).
Proof.
  unfold gpstime_of, extract_gpstime.
  destruct (_ || _); [reflexivity|].
  destruct (py_in _ _); [reflexivity|].
  destruct (_ =? _); [reflexivity|].
  replace (truthy ob.SBP_MSG_GLO_BIASES) with true by reflexivity.
  rewrite orb_true_r. reflexivity.
Qed.

(** A message either carries its own time or takes the last known one. *)
Lemma gpstime_of_cases m :
  (exists t, forall last, gpstime_of m last = t) \/
  (forall last, gpstime_of m last = last).
Proof.
  unfold gpstime_of, extract_gpstime.
  destruct (_ || _); [left; eexists; reflexivity|].
  destruct (py_in _ _); [left; eexists; reflexivity|].
  destruct (_ =? _); [left; eexists; reflexivity|].
  right. intros last.
  replace (truthy ob.SBP_MSG_GLO_BIASES) with true by reflexivity.
  rewrite orb_true_r. reflexivity.
Qed.

Lemma chained_weaken l : forall x y, gps_le y x -> chained x l -> chained y l.
Proof.
  induction l as [|m l IH]; simpl; [trivial|].
  intros x y Hyx [Hx Hl].
  destruct (gpstime_of_cases m) as [[t Ht]|Hi].
  - rewrite Ht in *. split; [eapply gps_le_trans; eassumption | assumption].
  - rewrite Hi in *. split; [auto with zipper | eapply IH; eassumption].
Qed.

Lemma gpstime_of_ext m' m :
  (forall last, extract_gpstime m' last = extract_gpstime m last) ->
  forall last, gpstime_of m' last = gpstime_of m last.
Proof. intros H last. unfold gpstime_of. rewrite H. reflexivity. Qed.

Lemma chained_thinned l' l :
  thinned l' l -> forall x, chained x l -> chained x l'.
Proof.
  induction 1 as [|m l' l _ IH|m' m l' l Hm _ IH]; simpl; intros x.
  - trivial.
  - intros [Hx Hl]. apply IH. eapply chained_weaken; eassumption.
  - intros [Hx Hl]. rewrite (gpstime_of_ext _ _ Hm). split; [assumption|].
    apply IH. assumption.
Qed.

Lemma thinned_refl l : thinned l l.
Proof.
  induction l; [constructor | apply thinned_keep; [reflexivity | assumption]].
Qed.

Lemma chained_sorted last l :
  chained last l <-> Sorted gps_le (last :: thread_times last l).
Proof.
  revert last. induction l as [|m l IH]; intros last; simpl.
  - split; [repeat constructor | trivial].
  - rewrite IH. split.
    + intros [H1 H2]. constructor; [assumption | constructor; assumption].
    + intros H. inversion H as [|? ? Hs Hh]; subst.
      inversion Hh; subst. split; assumption.
Qed.

Lemma sorted_thread_chained l :
  Sorted gps_le (thread_times (0, 0) l) <-> chained (0, 0) l.
Proof.
  rewrite chained_sorted. split.
  - intros H. constructor; [assumption|].
    destruct l; simpl; constructor. auto with zipper.
  - intros H. inversion H; assumption.
Qed.

(** ** The inner loops *)

Lemma pull_base_passing brate L LB gen evs b lb g :
  pull_base brate L LB gen = (evs, b, lb, g) ->
  match b with
  | Got m' =>
      exists m, m' = set_sender m 0 /\
        base_passing brate L LB gen = m :: base_passing brate L lb g
  | Exhausted => base_passing brate L LB gen = [] /\ g = [] /\ lb = LB
  | Raised => False
  end.
Proof.
  revert evs b lb g. induction gen as [|m gen IH]; intros evs b lb g; simpl.
  - intros [= <- <- <- <-]. auto.
  - unfold gpstime_of at 1. rewrite extract_gpstime_defined.
    destruct (py_in _ _ && _).
    + intros [= <- <- <- <-]. exists m. auto.
    + destruct (pull_base brate L LB gen) as [[[e1 b1] l1] g1].
      intros [= <- <- <- <-]. apply (IH _ _ _ _ eq_refl).
Qed.

Lemma pull_base_events brate L LB gen evs b lb g :
  pull_base brate L LB gen = (evs, b, lb, g) ->
  Forall (fun e => exists m, e = Extract BasePull m) evs.
Proof.
  revert evs b lb g. induction gen as [|m gen IH]; intros evs b lb g; simpl.
  - intros [= <- <- <- <-]. constructor.
  - rewrite extract_gpstime_defined.
    destruct (py_in _ _ && _).
    + intros [= <- <- <- <-]. repeat constructor. eauto.
    + destruct (pull_base brate L LB gen) as [[[e1 b1] l1] g1].
      intros [= <- <- <- <-]. constructor; [eauto|]. apply (IH _ _ _ _ eq_refl).
Qed.

Lemma pull_base_got brate L LB gen evs m' lb g :
  pull_base brate L LB gen = (evs, Got m', lb, g) ->
  pass_through m' /\ sender m' = 0 /\ thinned (m' :: g) gen.
Proof.
  revert evs lb g. induction gen as [|m gen IH]; intros evs lb g; simpl.
  - discriminate.
  - rewrite extract_gpstime_defined.
    destruct (py_in _ _ && _) eqn:E.
    + intros [= <- <- <- <-]. apply andb_true_iff in E as [E _].
      repeat split; [exact E|]. apply thinned_keep; [reflexivity | apply thinned_refl].
    + destruct (pull_base brate L LB gen) as [[[e1 b1] l1] g1].
      intros [= <- -> <- <-]. destruct (IH _ _ _ eq_refl) as (H1 & H2 & H3).
      repeat split; try assumption. apply thinned_skip. assumption.
Qed.

Lemma pull_rove_filter gen r g :
  pull_rove gen = (r, g) -> slot r ++ filter rove_accepts g = filter rove_accepts gen.
Proof.
  revert r g. induction gen as [|m gen IH]; intros r g; simpl.
  - intros [= <- <-]. reflexivity.
  - fold (rove_accepts m). destruct (rove_accepts m).
    + intros [= <- <-]. reflexivity.
    + apply IH.
Qed.

Lemma pull_rove_got gen m g :
  pull_rove gen = (Some m, g) -> rove_accepts m = true /\ thinned (m :: g) gen.
Proof.
  revert g. induction gen as [|m0 gen IH]; intros g; simpl.
  - discriminate.
  - fold (rove_accepts m0). destruct (rove_accepts m0) eqn:E.
    + intros [= <- <-]. split; [exact E | apply thinned_refl].
    + intros H. destruct (IH _ H). split; [assumption | apply thinned_skip; assumption].
Qed.

Lemma pull_rove_none gen g : pull_rove gen = (None, g) -> g = [].
Proof.
  revert g. induction gen as [|m gen IH]; intros g; simpl.
  - intros [= <-]. reflexivity.
  - destruct (_ && _); [discriminate | apply IH].
Qed.

Lemma emitted_pull_base brate L LB gen evs b lb g :
  pull_base brate L LB gen = (evs, b, lb, g) -> emitted evs = [].
Proof.
  intros H. apply pull_base_events in H.
  induction H as [|e evs [m ->] _ IH]; simpl; auto.
Qed.

(** ** One side silent *)

(** When the rover never yields an accepted message, the loop emits the
    pending base message and then the base messages that pass the filter and
    the gate, with [last_gpstime] never advanced. *)
Lemma zip_loop_rove_silent brate : forall st,
  rove_msg st = None ->
  pull_rove (rove_gen st) = (None, []) ->
  emitted (zip_loop brate st) =
  slot (base_msg st) ++
  map (fun m => set_sender m 0)
      (base_passing brate (last_gpstime st) (last_base_gpstime st) (base_gen st)).
Proof.
  apply (zip_loop_ind brate (fun st => _ -> _ -> _ = _)).
  intros [bg rg bm rm L LB] IH; simpl. intros -> Hr.
  loop_step IH E;
    unfold zip_step, fill_base, fill_rove in E; simpl in E; rewrite Hr in E.
  - destruct bm as [bm|].
    + injection E as <- <-. simpl in *. rewrite (IH eq_refl eq_refl). reflexivity.
    + destruct (pull_base brate L LB bg) as [[[e b] lb] g] eqn:Hb.
      pose proof Hb as He. apply emitted_pull_base in He.
      apply pull_base_passing in Hb.
      destruct b as [b| |]; [|discriminate|contradiction].
      destruct Hb as (m & -> & ->). injection E as <- <-.
      rewrite !emitted_app, He. simpl in *.
      rewrite (IH eq_refl eq_refl). reflexivity.
  - destruct bm as [bm|]; [discriminate|].
    destruct (pull_base brate L LB bg) as [[[e b] lb] g] eqn:Hb.
    pose proof Hb as He. apply emitted_pull_base in He.
    apply pull_base_passing in Hb.
    destruct b as [b| |]; [discriminate| |contradiction].
    destruct Hb as (-> & _). injection E as <-. rewrite He. reflexivity.
Qed.

(** When the base is exhausted, the loop emits the pending rover message and
    then the rover messages that pass the rover test. *)
Lemma zip_loop_base_done brate : forall st,
  base_msg st = None ->
  base_gen st = [] ->
  emitted (zip_loop brate st) =
  slot (rove_msg st) ++ filter rove_accepts (rove_gen st).
Proof.
  apply (zip_loop_ind brate (fun st => _ -> _ -> _ = _)).
  intros [bg rg bm rm L LB] IH; simpl. intros -> ->.
  loop_step IH E;
    unfold zip_step, fill_base, fill_rove in E; simpl in E.
  - destruct rm as [rm|].
    + injection E as <- <-. simpl in *. rewrite (IH eq_refl eq_refl). reflexivity.
    + destruct (pull_rove rg) as [r g] eqn:Hr.
      apply pull_rove_filter in Hr. rewrite <- Hr.
      destruct r as [r|]; [|discriminate].
      injection E as <- <-. simpl in *. rewrite (IH eq_refl eq_refl). reflexivity.
  - destruct rm as [rm|]; [discriminate|].
    destruct (pull_rove rg) as [r g] eqn:Hr.
    destruct r as [r|]; [discriminate|].
    pose proof (pull_rove_none _ _ Hr) as ->.
    apply pull_rove_filter in Hr. rewrite <- Hr.
    injection E as <-. reflexivity.
Qed.

Lemma base_passing_thinned brate L l : forall LB,
  thinned (map (fun m => set_sender m 0) (base_passing brate L LB l)) l.
Proof.
  induction l as [|m l IH]; intros LB; simpl; [constructor|].
  destruct (_ && _); simpl.
  - apply thinned_keep; [reflexivity | apply IH].
  - apply thinned_skip, IH.
Qed.

Lemma filter_thinned (f : Msg -> bool) l : thinned (filter f l) l.
Proof.
  induction l as [|m l IH]; simpl; [constructor|].
  destruct (f m); [apply thinned_keep; [reflexivity | exact IH] | apply thinned_skip, IH].
Qed.

Lemma fill_base_thinned brate st e b lb g :
  fill_base brate st = (e, b, lb, g) ->
  emitted e = [] /\
  match b with
  | Got m => thinned (m :: g) (slot (base_msg st) ++ base_gen st)
  | Exhausted => g = []
  | Raised => False
  end.
Proof.
  unfold fill_base. destruct (base_msg st) as [m|].
  - intros [= <- <- <- <-]. split; [reflexivity | apply thinned_refl].
  - intros H. split; [eapply emitted_pull_base; eassumption|].
    destruct b as [m| |].
    + apply pull_base_got in H. apply H.
    + apply pull_base_passing in H. apply H.
    + apply pull_base_passing in H. exact H.
Qed.

Lemma fill_rove_thinned st r g :
  fill_rove st = (r, g) ->
  match r with
  | Some m => thinned (m :: g) (slot (rove_msg st) ++ rove_gen st)
  | None => g = []
  end.
Proof.
  unfold fill_rove. destruct (rove_msg st) as [m|].
  - intros [= <- <-]. apply thinned_refl.
  - intros H. destruct r as [m|].
    + apply pull_rove_got in H. apply H.
    + eapply pull_rove_none; eassumption.
Qed.

Lemma compare_gpstime_cases a b :
  (compare_gpstime a b =? 1) = true /\ gps_le b a /\ ~ gps_le a b \/
  (compare_gpstime a b =? 1) = false /\ gps_le a b.
Proof.
  unfold compare_gpstime, gps_le.
  destruct (N.ltb_spec (fst a) (fst b)); [right; simpl; intuition lia|].
  destruct (N.ltb_spec (fst b) (fst a)); [left; simpl; intuition lia|].
  destruct (N.ltb_spec (snd a) (snd b)); [right; simpl; intuition lia|].
  destruct (N.ltb_spec (snd b) (snd a)); [left|right]; simpl; intuition lia.
Qed.

(** Keeping a pending message [m] in front of the other side's remainder
    when the last known time moves from [L] to [t], a time not after the
    time of [m]. *)
Lemma chained_rebase m l L t :
  chained L (m :: l) -> gps_le L t -> gps_le t (gpstime_of m L) ->
  chained t (m :: l).
Proof.
  simpl. intros [H1 H2] HLt Htm.
  destruct (gpstime_of_cases m) as [[u Hu]|Hi].
  - rewrite Hu in *. split; assumption.
  - rewrite Hi in *. split; [auto with zipper|].
    eapply chained_weaken; eassumption.
Qed.

(** ** Monotonicity of the merge *)

Lemma zip_loop_chained brate : forall st,
  chained (last_gpstime st) (slot (base_msg st) ++ base_gen st) ->
  chained (last_gpstime st) (slot (rove_msg st) ++ rove_gen st) ->
  chained (last_gpstime st) (emitted (zip_loop brate st)).
Proof.
  apply (zip_loop_ind brate (fun st => _ -> _ -> _)).
  intros st IH HB HR.
  loop_step IH E; unfold zip_step in E;
    destruct (fill_base brate st) as [[[e b] lb] g] eqn:Hb;
    destruct (fill_rove st) as [r g'] eqn:Hr;
    apply fill_base_thinned in Hb as [He Hb]; apply fill_rove_thinned in Hr;
    (destruct b as [b| |]; [|subst g|contradiction]);
    (destruct r as [r|]; [|subst g']).
  - (* both slots occupied *)
    apply (fun H => chained_thinned _ _ H _ HB) in Hb.
    apply (fun H => chained_thinned _ _ H _ HR) in Hr.
    rewrite !extract_gpstime_defined in E.
    destruct (compare_gpstime_cases (gpstime_of r (last_gpstime st))
                (gpstime_of b (last_gpstime st))) as [(C & Hle & _)|(C & Hle)];
      rewrite C in E; injection E as <- <-;
      rewrite !emitted_app, He; simpl in *.
    + split; [apply Hb|]. apply IH; [apply Hb|].
      apply chained_rebase with (L := last_gpstime st);
        [exact Hr | apply Hb | exact Hle].
    + split; [apply Hr|]. apply IH; [|apply Hr].
      apply chained_rebase with (L := last_gpstime st);
        [exact Hb | apply Hr | exact Hle].
  - (* rover exhausted *)
    injection E as <- <-. rewrite !emitted_app, He. simpl.
    rewrite zip_loop_rove_silent by reflexivity. simpl.
    apply (chained_thinned (b :: _) (b :: g));
      [|eapply chained_thinned; eassumption].
    apply thinned_keep; [reflexivity | apply base_passing_thinned].
  - (* base exhausted *)
    injection E as <- <-. rewrite !emitted_app, He. simpl.
    rewrite zip_loop_base_done by reflexivity. simpl.
    apply (chained_thinned (r :: _) (r :: g'));
      [|eapply chained_thinned; eassumption].
    apply thinned_keep; [reflexivity | apply filter_thinned].
  - discriminate.
  - rewrite !extract_gpstime_defined in E.
    destruct (_ =? 1); discriminate.
  - discriminate.
  - discriminate.
  - injection E as <-. rewrite He. exact I.
Qed.

(** ** Every run has a well-formed trace *)

Lemma rove_accepts_pass m : rove_accepts m = true -> pass_through m.
Proof. unfold rove_accepts. intros H. apply andb_true_iff in H. apply H. Qed.

Lemma rove_accepts_sender m : rove_accepts m = true -> (sender m =? 0) = false.
Proof.
  unfold rove_accepts, truthy. intros H. apply andb_true_iff in H as [H _].
  apply negb_true_iff in H. exact H.
Qed.

Lemma fill_base_ok brate st e b lb g :
  slots_ok st ->
  fill_base brate st = (e, b, lb, g) ->
  Forall event_ok e /\
  match b with Got m => pass_through m /\ sender m = 0 | _ => True end.
Proof.
  intros [Hs _]. unfold fill_base. destruct (base_msg st) as [m|].
  - intros [= <- <- <- <-]. split; [constructor | apply Hs; reflexivity].
  - intros H. split.
    + apply pull_base_events in H. eapply Forall_impl; [|exact H].
      intros ? [m ->]. exact I.
    + destruct b as [m| |]; trivial. apply pull_base_got in H.
      split; apply H.
Qed.

Lemma fill_rove_ok st r g :
  slots_ok st ->
  fill_rove st = (r, g) ->
  match r with Some m => rove_accepts m = true | None => True end.
Proof.
  intros [_ Hs]. unfold fill_rove. destruct (rove_msg st) as [m|].
  - intros [= <- <-]. apply Hs. reflexivity.
  - intros H. destruct r as [m|]; trivial. apply pull_rove_got in H. apply H.
Qed.

Lemma zip_step_ok brate st evs nxt :
  slots_ok st ->
  zip_step brate st = (evs, nxt) ->
  Forall event_ok evs /\ (forall st', nxt = Some st' -> slots_ok st').
Proof.
  intros Hs E. unfold zip_step in E.
  destruct (fill_base brate st) as [[[e b] lb] g] eqn:Hb.
  destruct (fill_rove st) as [r g'] eqn:Hr.
  pose proof Hb as Hx. apply fill_base_thinned in Hx as [_ Hx].
  apply (fill_base_ok _ _ _ _ _ _ Hs) in Hb as [He Hb].
  apply (fill_rove_ok _ _ _ Hs) in Hr.
  assert (Hr' : match r with Some m => pass_through m | None => True end)
    by (destruct r; auto using rove_accepts_pass).
  destruct b as [b| |]; [|clear Hx|contradiction]; destruct r as [r|].
  - rewrite !extract_gpstime_defined in E.
    destruct (_ =? 1); injection E as <- <-; (split;
      [ apply Forall_app; split; [exact He|];
        repeat (apply Forall_cons || apply Forall_nil); simpl; tauto
      | intros st' [= <-]; split; simpl; intros ? [= <-]; auto ]).
  - injection E as <- <-. split.
    + apply Forall_app. split; [exact He|].
      repeat (apply Forall_cons || apply Forall_nil); simpl; tauto.
    + intros st' [= <-]; split; simpl; intros ? [=].
  - injection E as <- <-. split.
    + apply Forall_app. split; [exact He|].
      repeat (apply Forall_cons || apply Forall_nil); simpl; tauto.
    + intros st' [= <-]; split; simpl; intros ? [=].
  - injection E as <- <-. split; [exact He | intros ? [=]].
Qed.

Lemma zip_loop_ok brate : forall st,
  slots_ok st -> Forall event_ok (zip_loop brate st).
Proof.
  apply (zip_loop_ind brate (fun st => _ -> _)).
  intros st IH Hs. rewrite zip_loop_step.
  destruct (zip_step _ _) as [evs nxt] eqn:E.
  destruct (zip_step_ok _ _ _ _ Hs E) as [Hev Hnxt].
  destruct nxt as [st'|]; [|exact Hev].
  apply Forall_app. split; [exact Hev|].
  apply (IH _ _ eq_refl). apply Hnxt. reflexivity.
Qed.

Lemma slots_ok_init bg rg L LB : slots_ok (mkState bg rg None None L LB).
Proof. split; simpl; intros ? [=]. Qed.

Lemma emitted_ok tr :
  Forall event_ok tr -> Forall pass_through (emitted tr).
Proof.
  induction 1 as [|e tr He _ IH]; simpl; [constructor|].
  destruct e as [[]|m|]; simpl in *; try assumption.
  constructor; [apply He | assumption].
Qed.

(** ** Extraction calls of the base pull loop *)

Lemma base_pull_calls_app tr1 tr2 :
  base_pull_calls (tr1 ++ tr2) = base_pull_calls tr1 ++ base_pull_calls tr2.
Proof.
  induction tr1 as [|[[]|m|] tr1 IH]; simpl; rewrite ?IH; reflexivity.
Qed.

Lemma pull_base_calls brate L LB gen evs b lb g :
  pull_base brate L LB gen = (evs, b, lb, g) ->
  base_pull_calls evs ++ g = gen.
Proof.
  revert evs b lb g. induction gen as [|m gen IH]; intros evs b lb g; simpl.
  - intros [= <- <- <- <-]. reflexivity.
  - rewrite extract_gpstime_defined.
    destruct (py_in _ _ && _).
    + intros [= <- <- <- <-]. reflexivity.
    + destruct (pull_base brate L LB gen) as [[[e1 b1] l1] g1].
      intros [= <- <- <- <-]. simpl. f_equal. apply (IH _ _ _ _ eq_refl).
Qed.

Lemma fill_base_calls brate st e b lb g :
  fill_base brate st = (e, b, lb, g) ->
  base_pull_calls e ++ g = base_gen st.
Proof.
  unfold fill_base. destruct (base_msg st) as [m|].
  - intros [= <- <- <- <-]. reflexivity.
  - apply pull_base_calls.
Qed.

Lemma zip_loop_pull_calls brate : forall st,
  base_pull_calls (zip_loop brate st) = base_gen st.
Proof.
  apply (zip_loop_ind brate (fun st => _ = _)).
  intros st IH.
  loop_step IH E; unfold zip_step in E;
    destruct (fill_base brate st) as [[[e b] lb] g] eqn:Hb;
    destruct (fill_rove st) as [r g'] eqn:Hr;
    pose proof Hb as Hc; apply fill_base_calls in Hc;
    apply fill_base_thinned in Hb as [_ Hb];
    (destruct b as [b| |]; [| |contradiction]); destruct r as [r|];
    rewrite ?extract_gpstime_defined in E;
    try destruct (_ =? 1); try discriminate;
    try (injection E as <- <-; rewrite !base_pull_calls_app, IH; simpl;
         rewrite ?app_nil_r; exact Hc).
  injection E as <-. subst g. rewrite app_nil_r in Hc. exact Hc.
Qed.

(** ** The base messages of the output *)

Lemma base_passing_self_timed brate L l : forall LB,
  Forall self_timed l ->
  base_passing brate L LB l = base_passing brate (0, 0) LB l.
Proof.
  induction l as [|m l IH]; intros LB H; simpl; [reflexivity|].
  inversion H as [|? ? Hm Hl]; subst. rewrite (Hm L).
  destruct (_ && _); [f_equal|]; apply IH; assumption.
Qed.

Lemma fill_base_passing brate st e b lb g :
  fill_base brate st = (e, b, lb, g) ->
  match b with
  | Got m =>
      slot (base_msg st) ++
      map (fun m => set_sender m 0)
        (base_passing brate (last_gpstime st) (last_base_gpstime st) (base_gen st))
      = m :: map (fun m => set_sender m 0)
               (base_passing brate (last_gpstime st) lb g)
  | Exhausted =>
      base_msg st = None /\
      base_passing brate (last_gpstime st) (last_base_gpstime st) (base_gen st) = []
  | Raised => False
  end.
Proof.
  unfold fill_base. destruct (base_msg st) as [m|].
  - intros [= <- <- <- <-]. reflexivity.
  - intros H. apply pull_base_passing in H. destruct b as [m| |].
    + destruct H as (m0 & -> & ->). reflexivity.
    + split; [reflexivity | apply H].
    + exact H.
Qed.

Lemma zip_loop_base_side brate : forall st,
  slots_ok st ->
  Forall self_timed (base_gen st) ->
  filter (fun m => sender m =? 0) (emitted (zip_loop brate st)) =
  slot (base_msg st) ++
  map (fun m => set_sender m 0)
    (base_passing brate (0, 0) (last_base_gpstime st) (base_gen st)).
Proof.
  apply (zip_loop_ind brate (fun st => _ -> _ -> _ = _)).
  intros st IH Hs Hself. rewrite zip_loop_step.
  rewrite <- (base_passing_self_timed brate (last_gpstime st)) by assumption.
  destruct (zip_step _ _) as [evs nxt] eqn:E.
  destruct (zip_step_ok _ _ _ _ Hs E) as [_ Hnxt].
  unfold zip_step in E.
  destruct (fill_base brate st) as [[[e b] lb] g] eqn:Hb.
  destruct (fill_rove st) as [r g'] eqn:Hr.
  pose proof Hb as Hc. apply fill_base_calls in Hc.
  assert (Hg : Forall self_timed g)
    by (rewrite <- Hc in Hself; apply Forall_app in Hself; apply Hself).
  pose proof Hb as He. apply fill_base_thinned in He as [He Hx].
  pose proof (fill_base_ok _ _ _ _ _ _ Hs Hb) as [_ Hbs].
  apply (fill_rove_ok _ _ _ Hs) in Hr.
  apply fill_base_passing in Hb.
  destruct b as [b| |]; [| |contradiction]; destruct r as [r|];
    rewrite ?extract_gpstime_defined in E;
    try destruct (_ =? 1); injection E as <- <-;
    try specialize (IH _ _ eq_refl (Hnxt _ eq_refl) Hg);
    rewrite ?emitted_app, ?He; simpl in *;
    try rewrite (proj2 Hbs); try rewrite (rove_accepts_sender _ Hr); simpl.
  - rewrite Hb, IH, (base_passing_self_timed brate (last_gpstime st) g) by assumption.
    reflexivity.
  - rewrite Hb, IH, (base_passing_self_timed brate (last_gpstime st) g) by assumption.
    reflexivity.
  - rewrite Hb, IH, (base_passing_self_timed brate (last_gpstime st) g) by assumption.
    reflexivity.
  - destruct Hb as [-> ->]. rewrite IH. subst g. reflexivity.
  - destruct Hb as [-> ->]. reflexivity.
Qed.

(** ** Rounding to binary64 *)

Section Binary64Facts.

Local Open Scope Q_scope.

Lemma pow2_pos k : 0 < 2 ^ k.
Proof. apply Qpower_0_lt. reflexivity. Qed.

Lemma pow2_le a b : (a <= b)%Z -> 2 ^ a <= 2 ^ b.
Proof. intros H. apply Qpower_le_compat_l; [exact H | discriminate]. Qed.

Lemma pow2_lt a b : (a < b)%Z -> 2 ^ a < 2 ^ b.
Proof. intros H. apply Qpower_lt_compat_l; [exact H | reflexivity]. Qed.

Lemma pow2_plus a b : 2 ^ (a + b) == 2 ^ a * 2 ^ b.
Proof. apply Qpower_plus. discriminate. Qed.

Lemma pow2_inject k : (0 <= k)%Z -> 2 ^ k == inject_Z (2 ^ k).
Proof. intros H. rewrite Zpower_Qpower by exact H. reflexivity. Qed.

Lemma pow2_succ k : 2 ^ (k + 1) == 2 * 2 ^ k.
Proof. rewrite pow2_plus. change (2 ^ 1) with 2. ring. Qed.

Lemma Qlog2_spec (x : Q) : 0 < x -> 2 ^ Qlog2 x <= x /\ x < 2 ^ (Qlog2 x + 1).
Proof.
  intros Hx. unfold Qlog2.
  destruct x as [n d]. cbn [Qnum Qden].
  assert (Hn : (0 < n)%Z) by (unfold Qlt in Hx; simpl in Hx; lia).
  pose proof (Z.log2_spec n Hn) as [Ha1 Ha2].
  pose proof (Z.log2_spec (Zpos d) ltac:(lia)) as [Hb1 Hb2].
  pose proof (Z.log2_nonneg n) as Ha0.
  pose proof (Z.log2_nonneg (Zpos d)) as Hb0.
  set (a := Z.log2 n) in *. set (b := Z.log2 (Zpos d)) in *.
  assert (Hnd : n # d == inject_Z n / inject_Z (Zpos d)) by apply Qmake_Qdiv.
  assert (Hdpos : 0 < inject_Z (Zpos d)) by reflexivity.
  assert (Han : 2 ^ a <= inject_Z n /\ inject_Z n < 2 ^ (a + 1)).
  { rewrite !pow2_inject by lia. rewrite <- Zle_Qle, <- Zlt_Qlt.
    replace (a + 1)%Z with (Z.succ a) by lia. split; assumption. }
  assert (Hbd : 2 ^ b <= inject_Z (Zpos d) /\ inject_Z (Zpos d) < 2 ^ (b + 1)).
  { rewrite !pow2_inject by lia. rewrite <- Zle_Qle, <- Zlt_Qlt.
    replace (b + 1)%Z with (Z.succ b) by lia. split; assumption. }
  destruct Han as [Han1 Han2]. destruct Hbd as [Hbd1 Hbd2].
  destruct (Qle_bool (2 ^ (a - b)) (n # d)) eqn:E.
  - apply Qle_bool_iff in E. split; [exact E|].
    rewrite Hnd. apply Qlt_shift_div_r; [exact Hdpos|].
    eapply Qlt_le_trans; [exact Han2|].
    replace (a + 1)%Z with ((a - b + 1) + b)%Z by lia.
    rewrite (pow2_plus (a - b + 1) b).
    apply Qmult_le_l; [apply pow2_pos | exact Hbd1].
  - assert (E' : n # d < 2 ^ (a - b)).
    { apply Qnot_le_lt. intros H. apply Qle_bool_iff in H. congruence. }
    replace (a - b - 1 + 1)%Z with (a - b)%Z by lia.
    split; [|exact E'].
    rewrite Hnd. apply Qle_shift_div_l; [exact Hdpos|].
    apply Qle_trans with (2 ^ a); [|exact Han1].
    replace a with ((a - b - 1) + (b + 1))%Z at 2 by lia.
    rewrite (pow2_plus (a - b - 1) (b + 1)).
    apply Qmult_le_l; [apply pow2_pos | apply Qlt_le_weak; exact Hbd2].
Qed.

Lemma Qlog2_unique (x : Q) (k : Z) : 2 ^ k <= x -> x < 2 ^ (k + 1) -> Qlog2 x = k.
Proof.
  intros H1 H2.
  assert (Hx : 0 < x) by (eapply Qlt_le_trans; [apply pow2_pos | exact H1]).
  destruct (Qlog2_spec x Hx) as [L1 L2].
  assert (A : (Qlog2 x < k + 1)%Z).
  { apply (Qpower_lt_compat_l_inv 2); [|reflexivity].
    eapply Qle_lt_trans; [exact L1 | exact H2]. }
  assert (B : (k < Qlog2 x + 1)%Z).
  { apply (Qpower_lt_compat_l_inv 2); [|reflexivity].
    eapply Qle_lt_trans; [exact H1 | exact L2]. }
  lia.
Qed.

Lemma Qlog2_le (x y : Q) : 0 < x -> x <= y -> (Qlog2 x <= Qlog2 y)%Z.
Proof.
  intros Hx Hxy.
  assert (Hy : 0 < y) by (eapply Qlt_le_trans; eassumption).
  destruct (Qlog2_spec x Hx) as [L1 _]. destruct (Qlog2_spec y Hy) as [_ L2].
  assert (A : (Qlog2 x < Qlog2 y + 1)%Z).
  { apply (Qpower_lt_compat_l_inv 2); [|reflexivity].
    eapply Qle_lt_trans; [exact L1|]. eapply Qle_lt_trans; [exact Hxy | exact L2]. }
  lia.
Qed.

Lemma Qfloor_eq (x y : Q) : x == y -> Qfloor x = Qfloor y.
Proof.
  intros H. apply Z.le_antisymm; apply Qfloor_resp_le; rewrite H; apply Qle_refl.
Qed.

Lemma nearest_even_eq (x y : Q) : x == y -> nearest_even x = nearest_even y.
Proof.
  intros H. unfold nearest_even. rewrite (Qfloor_eq x y H).
  rewrite (Qcompare_comp (x - inject_Z (Qfloor y)) (y - inject_Z (Qfloor y))
             ltac:(rewrite H; reflexivity) (1 # 2) (1 # 2) ltac:(reflexivity)).
  reflexivity.
Qed.

Lemma nearest_even_Z (z : Z) : nearest_even (inject_Z z) = z.
Proof.
  unfold nearest_even. rewrite Qfloor_Z.
  assert (E : inject_Z z - inject_Z z == 0) by ring.
  rewrite (Qcompare_comp _ _ E (1 # 2) (1 # 2) ltac:(reflexivity)).
  reflexivity.
Qed.

Lemma nearest_even_floor (x : Q) :
  nearest_even x = Qfloor x \/ nearest_even x = (Qfloor x + 1)%Z.
Proof.
  unfold nearest_even. destruct (Qcompare _ _); [destruct (Z.even _)| |]; auto.
Qed.

Lemma nearest_even_le (x y : Q) : x <= y -> (nearest_even x <= nearest_even y)%Z.
Proof.
  intros Hxy. pose proof (Qfloor_resp_le x y Hxy) as Hf.
  destruct (Z.eq_dec (Qfloor x) (Qfloor y)) as [E|NE].
  - unfold nearest_even. rewrite E.
    assert (Hr : x - inject_Z (Qfloor y) <= y - inject_Z (Qfloor y)).
    { apply Qplus_le_l with (z := inject_Z (Qfloor y)).
      ring_simplify. exact Hxy. }
    destruct (Qcompare_spec (x - inject_Z (Qfloor y)) (1 # 2)) as [Hx|Hx|Hx];
      destruct (Qcompare_spec (y - inject_Z (Qfloor y)) (1 # 2)) as [Hy|Hy|Hy];
      try lia; try (destruct (Z.even (Qfloor y)); lia); exfalso.
    + rewrite Hx in Hr. apply (Qlt_irrefl (1 # 2)).
      eapply Qle_lt_trans; eassumption.
    + rewrite Hy in Hr. apply (Qlt_irrefl (1 # 2)).
      eapply Qlt_le_trans; eassumption.
    + apply (Qlt_irrefl (1 # 2)).
      eapply Qlt_trans; [exact Hx|]. eapply Qle_lt_trans; eassumption.
  - destruct (nearest_even_floor x) as [-> | ->];
      destruct (nearest_even_floor y) as [-> | ->]; lia.
Qed.

Lemma nearest_even_ge (x : Q) (z : Z) : inject_Z z <= x -> (z <= nearest_even x)%Z.
Proof. intros H. rewrite <- (nearest_even_Z z). apply nearest_even_le, H. Qed.

Lemma nearest_even_upper (x : Q) (z : Z) : x <= inject_Z z -> (nearest_even x <= z)%Z.
Proof. intros H. rewrite <- (nearest_even_Z z). apply nearest_even_le, H. Qed.

Lemma ulp_exponent_le (x y : Q) :
  0 < x -> x <= y -> (ulp_exponent x <= ulp_exponent y)%Z.
Proof.
  intros Hx Hxy. unfold ulp_exponent.
  assert (Hy : 0 < y) by (eapply Qlt_le_trans; eassumption).
  assert (H : (Qlog2 (Qabs x) <= Qlog2 (Qabs y))%Z).
  { apply Qlog2_le.
    - rewrite Qabs_pos by (apply Qlt_le_weak; exact Hx). exact Hx.
    - rewrite !Qabs_pos by (apply Qlt_le_weak; assumption). exact Hxy. }
  lia.
Qed.

Lemma div_pow2_le (x y : Q) (e : Z) : x <= y -> x / 2 ^ e <= y / 2 ^ e.
Proof.
  intros H. unfold Qdiv. apply Qmult_le_compat_r; [exact H|].
  apply Qlt_le_weak, Qinv_lt_0_compat, pow2_pos.
Qed.

(** Rounding never decreases on the positive numbers. *)
Lemma nearest_le (x y : Q) : 0 < x -> x <= y -> nearest x <= nearest y.
Proof.
  intros Hx Hxy.
  assert (Hy : 0 < y) by (eapply Qlt_le_trans; eassumption).
  pose proof (ulp_exponent_le x y Hx Hxy) as He.
  unfold nearest.
  destruct (Z.eq_dec (ulp_exponent x) (ulp_exponent y)) as [E|NE].
  - rewrite E. apply Qmult_le_compat_r; [|apply Qlt_le_weak, pow2_pos].
    rewrite <- Zle_Qle. apply nearest_even_le, div_pow2_le, Hxy.
  - assert (Hlt : (ulp_exponent x < ulp_exponent y)%Z) by lia. clear NE He.
    (* the result for y is at least 2^(ey+52), the one for x at most 2^(ex+53) *)
    apply Qle_trans with (2 ^ (ulp_exponent x + 53)).
    + rewrite (pow2_plus (ulp_exponent x) 53), Qmult_comm.
      apply Qmult_le_l; [apply pow2_pos|].
      rewrite (pow2_inject 53) by lia. rewrite <- Zle_Qle.
      apply nearest_even_upper. rewrite <- (pow2_inject 53) by lia.
      apply Qle_shift_div_r; [apply pow2_pos|].
      rewrite <- pow2_plus.
      assert (Hax : Qabs x == x) by (apply Qabs_pos, Qlt_le_weak, Hx).
      assert (Hpx : 0 < Qabs x) by (rewrite Hax; exact Hx).
      destruct (Qlog2_spec (Qabs x) Hpx) as [_ U].
      unfold ulp_exponent. remember (Qlog2 (Qabs x)) as L eqn:HL.
      rewrite Hax in U.
      apply Qlt_le_weak. eapply Qlt_le_trans; [exact U|].
      apply pow2_le. lia.
    + apply Qle_trans with (2 ^ (ulp_exponent y + 52)); [apply pow2_le; lia|].
      rewrite (pow2_plus (ulp_exponent y) 52), Qmult_comm.
      apply Qmult_le_r; [apply pow2_pos|].
      rewrite (pow2_inject 52) by lia. rewrite <- Zle_Qle.
      apply nearest_even_ge. rewrite <- (pow2_inject 52) by lia.
      apply Qle_shift_div_l; [apply pow2_pos|].
      rewrite <- pow2_plus.
      assert (Hay : Qabs y == y) by (apply Qabs_pos, Qlt_le_weak, Hy).
      assert (Hpy : 0 < Qabs y) by (rewrite Hay; exact Hy).
      destruct (Qlog2_spec (Qabs y) Hpy) as [Lo _].
      unfold ulp_exponent in *. remember (Qlog2 (Qabs y)) as L eqn:HL.
      rewrite Hay in Lo.
      eapply Qle_trans; [|exact Lo].
      apply pow2_le. lia.
Qed.

Lemma nearest_nonpos (x : Q) : x <= 0 -> nearest x <= 0.
Proof.
  intros H. unfold nearest.
  assert (Hn : (nearest_even (x / 2 ^ ulp_exponent x) <= 0)%Z).
  { apply nearest_even_upper. apply Qle_shift_div_r; [apply pow2_pos|].
    rewrite Qmult_0_l. exact H. }
  rewrite Zle_Qle in Hn.
  apply Qle_trans with (0 * 2 ^ ulp_exponent x).
  - apply Qmult_le_compat_r; [exact Hn | apply Qlt_le_weak, pow2_pos].
  - rewrite Qmult_0_l. apply Qle_refl.
Qed.

Lemma nearest_nonneg (x : Q) : 0 <= x -> 0 <= nearest x.
Proof.
  intros H. unfold nearest.
  assert (Hn : (0 <= nearest_even (x / 2 ^ ulp_exponent x))%Z).
  { apply nearest_even_ge. apply Qle_shift_div_l; [apply pow2_pos|].
    rewrite Qmult_0_l. exact H. }
  rewrite Zle_Qle in Hn.
  apply Qmult_le_0_compat; [exact Hn | apply Qlt_le_weak, pow2_pos].
Qed.

Lemma Qlog2_nonpos (x : Q) : x <= 0 -> (Qlog2 x <= -1)%Z.
Proof.
  intros H. unfold Qlog2.
  assert (Hn : (Qnum x <= 0)%Z) by (unfold Qle in H; simpl in H; lia).
  rewrite (Z.log2_nonpos (Qnum x) Hn).
  pose proof (Z.log2_nonneg (Zpos (Qden x))).
  destruct (Qle_bool _ x) eqn:E; [|lia].
  apply Qle_bool_iff in E. exfalso.
  apply (Qlt_irrefl 0). eapply Qlt_le_trans; [apply pow2_pos|].
  eapply Qle_trans; eassumption.
Qed.

Lemma Qlog2_below (x : Q) (k : Z) : (0 <= k)%Z -> x < 2 ^ k -> (Qlog2 x < k)%Z.
Proof.
  intros Hk Hx. destruct (Qlt_le_dec 0 x) as [Hpos|Hnp].
  - destruct (Qlog2_spec x Hpos) as [Lo _].
    apply (Qpower_lt_compat_l_inv 2); [|reflexivity].
    eapply Qle_lt_trans; eassumption.
  - pose proof (Qlog2_nonpos x Hnp). lia.
Qed.

Lemma Qabs_inject (z : Z) : Qabs (inject_Z z) = inject_Z (Z.abs z).
Proof. reflexivity. Qed.

(** Integers below [2^53] are binary64 values. *)
Lemma nearest_int (x : Q) (z : Z) :
  x == inject_Z z -> (Z.abs z < 2 ^ 53)%Z -> nearest x == inject_Z z.
Proof.
  intros Hx Hz. unfold nearest.
  assert (He : (ulp_exponent x <= 0)%Z).
  { unfold ulp_exponent.
    assert (Qlog2 (Qabs x) < 53)%Z; [|lia].
    apply Qlog2_below; [lia|].
    rewrite Hx, Qabs_inject, (pow2_inject 53) by lia.
    rewrite <- Zlt_Qlt. exact Hz. }
  set (e := ulp_exponent x) in *.
  assert (Hs : x / 2 ^ e == inject_Z (z * 2 ^ (- e))).
  { rewrite inject_Z_mult, <- (pow2_inject (- e)) by lia.
    rewrite Qpower_opp, Hx. unfold Qdiv. reflexivity. }
  rewrite (nearest_even_eq _ _ Hs), nearest_even_Z.
  rewrite inject_Z_mult, <- (pow2_inject (- e)) by lia.
  rewrite Qpower_opp. field.
  intros H. pose proof (pow2_pos e) as P. rewrite H in P. discriminate.
Qed.

Lemma Qred_inject (z : Z) : Qred (inject_Z z) = inject_Z z.
Proof.
  unfold Qred, inject_Z.
  pose proof (Z.ggcd_gcd z 1) as G. pose proof (Z.ggcd_correct_divisors z 1) as D.
  destruct (Z.ggcd z 1) as [g [aa bb]]. simpl in *.
  rewrite Z.gcd_1_r in G. subst g. destruct D as [D1 D2].
  rewrite Z.mul_1_l in D1, D2. subst. reflexivity.
Qed.

Lemma round64_int (x : Q) (z : Z) :
  x == inject_Z z -> (Z.abs z < 2 ^ 53)%Z -> round64 x = finite (inject_Z z).
Proof.
  intros Hx Hz. pose proof (nearest_int x z Hx Hz) as Hn. unfold round64.
  destruct (Qle_bool (2 ^ 1024) (Qabs (nearest x))) eqn:E.
  - exfalso. apply Qle_bool_iff in E. rewrite Hn, Qabs_inject in E.
    rewrite (pow2_inject 1024) in E by lia. rewrite <- Zle_Qle in E.
    assert ((2 ^ 53 < 2 ^ 1024)%Z) by (apply Z.pow_lt_mono_r; lia). lia.
  - rewrite (Qred_complete _ _ Hn), Qred_inject. reflexivity.
Qed.

Lemma int_ge_float_iff (n : Z) (f : float) :
  int_ge_float n f = true <-> float_le_int f n.
Proof.
  destruct f as [|s|y]; simpl.
  - split; [discriminate | contradiction].
  - reflexivity.
  - apply Qle_bool_iff.
Qed.

Lemma Qnum_neg (x : Q) : (Qnum x <? 0)%Z = true <-> x < 0.
Proof.
  rewrite Z.ltb_lt. unfold Qlt. simpl. lia.
Qed.

Lemma round64_cases (x : Q) :
  (round64 x = finite (Qred (nearest x)) /\ Qabs (nearest x) < 2 ^ 1024) \/
  (round64 x = inf (Qnum x <? 0)%Z /\ 2 ^ 1024 <= Qabs (nearest x)).
Proof.
  unfold round64. destruct (Qle_bool _ _) eqn:E.
  - right. split; [reflexivity | apply Qle_bool_iff, E].
  - left. split; [reflexivity|]. apply Qnot_le_lt. intros H.
    apply Qle_bool_iff in H. congruence.
Qed.

(** A sum that is rounded to at most [n] stays so when it is made smaller. *)
Lemma round64_le_int_mono (s s' : Q) (n : Z) :
  s' <= s -> (0 <= n)%Z ->
  float_le_int (round64 s) n -> float_le_int (round64 s') n.
Proof.
  intros Hs Hn H.
  destruct (Qlt_le_dec 0 s') as [Hpos|Hnp].
  - assert (Hpos' : 0 < s) by (eapply Qlt_le_trans; eassumption).
    pose proof (nearest_le s' s Hpos Hs) as Hle.
    pose proof (nearest_nonneg s' (Qlt_le_weak _ _ Hpos)) as H0.
    destruct (round64_cases s) as [[E B]|[E B]]; rewrite E in H; cbn [float_le_int] in H.
    + rewrite Qred_correct in H.
      destruct (round64_cases s') as [[E' B']|[E' B']]; rewrite E'; cbn [float_le_int].
      * rewrite Qred_correct. eapply Qle_trans; eassumption.
      * exfalso. rewrite Qabs_pos in B' by exact H0.
        rewrite Qabs_pos in B by (eapply Qle_trans; eassumption).
        apply (Qlt_irrefl (2 ^ 1024)).
        eapply Qle_lt_trans; [exact B'|]. eapply Qle_lt_trans; eassumption.
    + exfalso. apply Qnum_neg in H.
      apply (Qlt_irrefl 0). eapply Qlt_trans; eassumption.
  - pose proof (nearest_nonpos s' Hnp) as H0.
    destruct (round64_cases s') as [[E' B']|[E' B']]; rewrite E'; cbn [float_le_int].
    + rewrite Qred_correct. eapply Qle_trans; [exact H0|].
      change 0 with (inject_Z 0). rewrite <- Zle_Qle. exact Hn.
    + apply Qnum_neg. apply Qnot_le_lt. intros Hge.
      pose proof (nearest_nonneg s' Hge) as H1.
      rewrite Qabs_pos in B' by exact H1.
      apply (Qlt_irrefl 0). eapply Qlt_le_trans; [apply (pow2_pos 1024)|].
      eapply Qle_trans; eassumption.
Qed.

(** On the samples [round64] gives what [SpecFloat] gives, and so does the
    sum of 1 and the float next above 1. *)
Example round64_samples :
  forallb (fun me =>
             float_eqb (of_spec_float
                          (SpecFloat.binary_normalize 53 1024 (fst me) (snd me) false))
                       (round64 (inject_Z (fst me) * 2 ^ snd me)))
          rounding_samples = true /\
  float_eqb
    (of_spec_float
       (SpecFloat.SFadd 53 1024
          (SpecFloat.S754_finite false 4503599627370496 (-52))
          (SpecFloat.S754_finite false 4503599627370497 (-52))))
    (fadd (finite 1) (finite (4503599627370497 # 4503599627370496))) = true.
Proof. split; vm_compute; reflexivity. Qed.

End Binary64Facts.

(** ** The rate gate *)

Lemma float_of_int_small (n : N) :
  n < 2 ^ 53 -> float_of_int (Z.of_N n) = finite (inject_Z (Z.of_N n)).
Proof.
  intros H. unfold float_of_int. apply round64_int; [reflexivity|].
  rewrite Z.abs_eq by lia. change (2 ^ 53)%Z with (Z.of_N (2 ^ 53)). lia.
Qed.

Lemma gate_cases (g0 g1 : GpsTime) (brate : number) :
  compare_gpstime_brate g0 g1 brate = 1 <->
  wn g1 < wn g0 \/
  (wn g0 = wn g1 /\
   (tow g0 = tow g1 \/ py_ge (tow g0) (py_add (tow g1) brate) = true)).
Proof.
  unfold compare_gpstime_brate, wn, tow.
  destruct (N.ltb_spec (fst g0) (fst g1)).
  { split; [discriminate | lia]. }
  destruct (N.ltb_spec (fst g1) (fst g0)).
  { split; [left; assumption | reflexivity]. }
  destruct (N.eqb_spec (snd g0) (snd g1)).
  { split; [right; split; [lia | left; assumption] | reflexivity]. }
  destruct (py_ge _ _).
  - split; [right; split; [lia | right; reflexivity] | reflexivity].
  - split; [discriminate|]. intros [Hlt|[_ [Heq|Hle]]]; [lia | contradiction | discriminate].
Qed.

Lemma gate_bit (g0 g1 : GpsTime) (brate : number) :
  compare_gpstime_brate g0 g1 brate = 1 \/ compare_gpstime_brate g0 g1 brate = 0.
Proof.
  unfold compare_gpstime_brate.
  repeat match goal with |- context [if ?b then _ else _] => destruct b end; auto.
Qed.

Lemma py_ge_exact (n p : N) (q : Q) :
  py_ge n (py_add p (Exact q)) = true <->
  (inject_Z (Z.of_N p) + q <= inject_Z (Z.of_N n))%Q.
Proof. cbn [py_add py_ge]. apply Qle_bool_iff. Qed.

Lemma py_ge_float (n p : N) (f : float) :
  p < 2 ^ 53 ->
  py_ge n (py_add p (Float f)) = true <->
  float_le_int (fadd (finite (inject_Z (Z.of_N p))) f) (Z.of_N n).
Proof.
  intros Hp. cbn [py_add py_ge]. rewrite (float_of_int_small p Hp).
  apply int_ge_float_iff.
Qed.

Lemma py_ge_float_int (n p : N) (z : Z) :
  p < 2 ^ 53 -> (Z.abs (Z.of_N p + z) < 2 ^ 53)%Z ->
  py_ge n (py_add p (Float (finite (inject_Z z)))) = true <->
  (Z.of_N p + z <= Z.of_N n)%Z.
Proof.
  intros Hp Hz. rewrite (py_ge_float n p _ Hp). cbn [fadd].
  rewrite (round64_int _ (Z.of_N p + z));
    [|rewrite inject_Z_plus; reflexivity | exact Hz].
  cbn [float_le_int]. rewrite <- Zle_Qle. reflexivity.
Qed.

(** ** The gate on observations every 5 units *)

Lemma Qle_bool_inject (a b : N) (c : Z) :
  Qle_bool (inject_Z (Z.of_N b) + inject_Z c) (inject_Z (Z.of_N a)) =
  (Z.of_N b + c <=? Z.of_N a)%Z.
Proof.
  apply eq_true_iff_eq. rewrite Qle_bool_iff, Z.leb_le.
  rewrite <- inject_Z_plus, <- Zle_Qle. reflexivity.
Qed.

Lemma gate_same_week w a b :
  truthy (compare_gpstime_brate (w, a) (w, b) (Exact 20)) = (a =? b) || (b + 20 <=? a).
Proof.
  unfold compare_gpstime_brate. simpl. rewrite N.ltb_irrefl.
  destruct (N.eqb_spec a b); [reflexivity|]. cbn [py_add py_ge].
  change (20 : Q) with (inject_Z 20). rewrite Qle_bool_inject.
  destruct (Z.leb_spec (Z.of_N b + 20) (Z.of_N a));
    destruct (N.leb_spec (b + 20) a); try reflexivity; lia.
Qed.

Lemma gpstime_of_obs w t s last : gpstime_of (obs_msg w t s) last = (w, t).
Proof. reflexivity. Qed.

Lemma obs_from_self_timed w s k n : Forall self_timed (obs_from w s k n).
Proof.
  unfold obs_from. apply Forall_forall. intros m H.
  apply in_map_iff in H as (i & <- & _). intros last. reflexivity.
Qed.

Lemma obs_from_passing w s n : forall k j : nat,
  (4 * j < k <= 4 * j + 4)%nat ->
  base_passing (Exact 20) (0, 0) (w, 20 * N.of_nat j) (obs_from w s k n) =
  filter on_20_grid (obs_from w s k n).
Proof.
  unfold obs_from. induction n as [|n IH]; intros k j Hk; [reflexivity|].
  cbn [seq map base_passing filter].
  rewrite gpstime_of_obs, gate_same_week. unfold on_20_grid at 1.
  cbn [obs_msg msg_type header_t snd].
  replace (py_in ob.SBP_MSG_OBS msgs_filter) with true by reflexivity.
  cbn [andb].
  destruct (N.eqb_spec (5 * N.of_nat k) (20 * N.of_nat j)); [lia|].
  cbn [orb].
  destruct (N.leb_spec (20 * N.of_nat j + 20) (5 * N.of_nat k)).
  - assert (k = 4 * j + 4)%nat as -> by lia.
    replace (5 * N.of_nat (4 * j + 4)) with (20 * N.of_nat (S j)) by lia.
    replace (20 * N.of_nat (S j) mod 20 =? 0) with true
      by (symmetry; apply N.eqb_eq; rewrite N.mul_comm; apply N.Div0.mod_mul).
    f_equal. apply (IH (S (4 * j + 4)) (S j)). lia.
  - replace (5 * N.of_nat k mod 20 =? 0) with false.
    + apply IH. lia.
    + symmetry. apply N.eqb_neq. intros H0.
      apply N.Div0.mod_divides in H0 as [c Hc]. lia.
Qed.

Lemma obs_every5_passing w s n :
  base_passing (Exact 20) (0, 0) (0, 0) (obs_every5 w s n) =
  filter on_20_grid (obs_every5 w s n).
Proof.
  unfold obs_every5, obs_from. destruct n as [|n]; [reflexivity|].
  cbn [seq map base_passing filter].
  rewrite gpstime_of_obs. cbn [obs_msg msg_type].
  replace (py_in ob.SBP_MSG_OBS msgs_filter) with true by reflexivity.
  replace (truthy (compare_gpstime_brate (w, 5 * N.of_nat 0) (0, 0) (Exact 20))) with true.
  - change (on_20_grid (obs_msg w (5 * N.of_nat 0) s)) with true.
    cbn [andb]. f_equal. apply (obs_from_passing w s n 1 0). lia.
  - unfold compare_gpstime_brate, truthy. cbn [fst snd].
    destruct (N.ltb_spec w 0); [lia|].
    destruct (N.ltb_spec 0 w); [reflexivity|].
    replace w with 0 by lia. reflexivity.
Qed.

(** ** The splitter and the silent sides *)

Lemma split_loop_filter to_json msg_gen : forall b r,
  split_loop to_json msg_gen b r =
  (b ++ map (record to_json) (filter (fun m => sender m =? 0) msg_gen),
   r ++ map (record to_json) (filter (fun m => negb (sender m =? 0)) msg_gen)).
Proof.
  induction msg_gen as [|m g IH]; intros b r; simpl.
  - rewrite !app_nil_r. reflexivity.
  - destruct (sender m =? 0); simpl; rewrite IH, <- ?app_assoc; reflexivity.
Qed.

Lemma filter_partition_perm {A : Type} (f : A -> bool) (l : list A) :
  Permutation (filter f l ++ filter (fun x => negb (f x)) l) l.
Proof.
  induction l as [|x l IH]; simpl; [constructor|].
  destruct (f x); simpl.
  - constructor. exact IH.
  - apply Permutation_sym, Permutation_cons_app, Permutation_sym, IH.
Qed.

Lemma pull_rove_silent rove :
  Forall (fun m => rove_accepts m = false) rove -> pull_rove rove = (None, []).
Proof.
  induction 1 as [|m rove Hm _ IH]; simpl; [reflexivity|].
  fold (rove_accepts m). rewrite Hm. exact IH.
Qed.

Lemma base_passing_none brate L l : forall LB,
  Forall (fun m => py_in (msg_type m) msgs_filter = false) l ->
  base_passing brate L LB l = [].
Proof.
  induction l as [|m l IH]; intros LB H; simpl; [reflexivity|].
  inversion H as [|? ? Hm Hl]; subst. rewrite Hm. simpl. apply IH. exact Hl.
Qed.

Lemma timestamped_self_timed m : timestamped m = true -> self_timed m.
Proof.
  unfold timestamped, self_timed, gpstime_of, extract_gpstime. intros H last.
  destruct ((msg_type m =? ob.SBP_MSG_OBS) || (msg_type m =? ob.SBP_MSG_OSR));
    [reflexivity|].
  destruct (py_in (msg_type m) msgs_filter_eph); [reflexivity|].
  destruct (msg_type m =? ob.SBP_MSG_IONO); [reflexivity | discriminate H].
Qed.


(** With a silent rover [last_gpstime] keeps its initial value: a base
    position that follows an observation takes the time [(0, 0)] and fails
    the gate against the observation's time. *)
Remark base_position_after_observation :
  base_passing (Exact 20) (0, 0) (0, 0) [obs_msg 1 100 9; base_pos_llh 9] =
  [obs_msg 1 100 9]
  /\ zip_json_generators [obs_msg 1 100 9; base_pos_llh 9] [] (Exact 20) =
     [obs_msg 1 100 0].
Proof. split; reflexivity. Qed.

(** * The claims *)

(** C1. Monotonicity: for any two input sequences whose threaded times
    (each message's extracted time, the previous message's time being the
    fallback, [(0, 0)] at the start) are non-decreasing for the
    lexicographic order, the threaded times of the emitted sequence are
    non-decreasing too. *)
Theorem zip_output_monotone (base rove : list Msg) (brate : number) :
  Sorted gps_le (thread_times (0, 0) base) ->
  Sorted gps_le (thread_times (0, 0) rove) ->
  Sorted gps_le (thread_times (0, 0) (zip_json_generators base rove brate)).
Proof.
  rewrite !sorted_thread_chained. intros Hb Hr.
  apply (zip_loop_chained brate (mkState base rove None None (0, 0) (0, 0)));
    assumption.
Qed.

Lemma zip_output_monotone_witness :
  Sorted gps_le
    (thread_times (0, 0)
       (zip_json_generators
          [obs_msg 1 0 9; base_pos_llh 9; obs_msg 1 20 9; heartbeat 9; obs_msg 1 40 9]
          [obs_msg 1 7 7; glo_biases 7; obs_msg 1 30 7]
          (Exact 20))).
Proof.
  apply zip_output_monotone;
    repeat (constructor; try (unfold gps_le; simpl; lia)).
Defined.

(** C2, as the code has it.  Whenever both a pending base message and a
    pending rover message are held and their extracted times are identical,
    the loop emits the rover message and keeps the base message pending;
    [compare_gpstime t t] is the index 0. *)
Theorem tie_emits_rover (brate : number) (st : zstate) (b r : Msg) (t : GpsTime) :
  base_msg st = Some b ->
  rove_msg st = Some r ->
  extract_gpstime b (last_gpstime st) = Some t ->
  extract_gpstime r (last_gpstime st) = Some t ->
  compare_gpstime t t = 0 /\
  emitted (zip_loop brate st) =
  r :: emitted (zip_loop brate
                  (mkState (base_gen st) (rove_gen st) (Some b) None t
                           (last_base_gpstime st))).
Proof.
  intros Hb Hr Eb Er.
  assert (C : compare_gpstime t t = 0)
    by (apply compare_gpstime_le, gps_le_refl).
  split; [exact C|].
  rewrite zip_loop_step. unfold zip_step, fill_base, fill_rove.
  rewrite Hb, Hr, Eb, Er, C. reflexivity.
Qed.

Lemma tie_emits_rover_witness :
  compare_gpstime (1, 0) (1, 0) = 0 /\
  emitted (zip_loop (Exact 20) (mkState [] [] (Some (obs_msg 1 0 0)) (Some (obs_msg 1 0 7))
                                (0, 0) (1, 0))) =
  obs_msg 1 0 7 ::
    emitted (zip_loop (Exact 20) (mkState [] [] (Some (obs_msg 1 0 0)) None (1, 0) (1, 0))).
Proof.
  apply (tie_emits_rover (Exact 20)
           (mkState [] [] (Some (obs_msg 1 0 0)) (Some (obs_msg 1 0 7)) (0, 0) (1, 0))
           (obs_msg 1 0 0) (obs_msg 1 0 7) (1, 0)); reflexivity.
Defined.

(** C2 as stated fails: on equal times the comparator returns 0, not 1, and
    a base and a rover observation of the same epoch leave the zipper rover
    first. *)
Lemma tie_break_counterexample :
  compare_gpstime (0, 0) (0, 0) <> 1 /\
  zip_json_generators [obs_msg 1 0 9] [obs_msg 1 0 7] (Exact 20) =
  [obs_msg 1 0 7; obs_msg 1 0 0].
Proof. split; [discriminate | reflexivity]. Qed.

(** C3, evaluated.  A heartbeat is in none of the sets the extraction
    distinguishes, yet its extracted time is the fallback, whatever the
    fallback is; no message at all has an absent time. *)
Theorem extract_gpstime_unrecognized (s : N) (last : GpsTime) :
  msg_type (heartbeat s) <> ob.SBP_MSG_OBS /\
  msg_type (heartbeat s) <> ob.SBP_MSG_OSR /\
  py_in (msg_type (heartbeat s)) msgs_filter_eph = false /\
  msg_type (heartbeat s) <> ob.SBP_MSG_IONO /\
  msg_type (heartbeat s) <> ob.SBP_MSG_BASE_POS_ECEF /\
  msg_type (heartbeat s) <> ob.SBP_MSG_BASE_POS_LLH /\
  msg_type (heartbeat s) <> ob.SBP_MSG_GLO_BIASES /\
  extract_gpstime (heartbeat s) last = Some last /\
  (forall m, extract_gpstime m last <> None).
Proof.
  repeat split; try discriminate.
  intros m. rewrite extract_gpstime_defined. discriminate.
Qed.

(** C4. Filtering: no emitted message has a kind outside [msgs_filter], and
    inputs made of kinds outside [msgs_filter] only give no output. *)
Theorem zip_filtering (base rove : list Msg) (brate : number) :
  Forall (fun m => py_in (msg_type m) msgs_filter = true)
         (zip_json_generators base rove brate) /\
  (Forall (fun m => py_in (msg_type m) msgs_filter = false) (base ++ rove) ->
   zip_json_generators base rove brate = []).
Proof.
  split.
  - apply emitted_ok, zip_loop_ok, slots_ok_init.
  - intros H. apply Forall_app in H as [Hb Hr].
    unfold zip_json_generators, zip_trace.
    rewrite zip_loop_rove_silent; simpl.
    + rewrite base_passing_none by assumption. reflexivity.
    + reflexivity.
    + apply pull_rove_silent. eapply Forall_impl; [|exact Hr].
      intros m Hm. unfold rove_accepts. rewrite Hm. apply andb_false_r.
Qed.

Lemma zip_filtering_witness :
  Forall (fun m => py_in (msg_type m) msgs_filter = true)
         (zip_json_generators [heartbeat 0; ephemeris_qzss 0 (1, 0)]
                              [heartbeat 7; heartbeat 7] (Exact 20)) /\
  zip_json_generators [heartbeat 0; ephemeris_qzss 0 (1, 0)]
                      [heartbeat 7; heartbeat 7] (Exact 20) = [].
Proof.
  destruct (zip_filtering [heartbeat 0; ephemeris_qzss 0 (1, 0)]
                          [heartbeat 7; heartbeat 7] (Exact 20)) as [H1 H2].
  split; [exact H1|]. apply H2. repeat constructor.
Defined.

(** C5, as the code has it.  [compare_gpstime_brate current previous minsep]
    is 1 exactly when the week number of [current] exceeds that of
    [previous], or the week numbers agree and the times of week are equal or
    [tow current >= tow previous + minsep], where the sum is the one Python
    computes: the exact sum when [minsep] is exact (an [int]), and the
    binary64 sum, rounded to nearest, when [minsep] is a [float] (with
    [tow previous] below [2^53], which its conversion keeps).  For a float
    the condition of the claim on the exact sum is still sufficient, with
    times of week below [2^53]; it is necessary too when the float has an
    integer value and the sum is below [2^53] in absolute value.  In every
    other case the result is 0. *)
Theorem compare_gpstime_brate_spec (current previous : GpsTime) :
  (forall minsep : Q,
      compare_gpstime_brate current previous (Exact minsep) = 1 <->
      wn previous < wn current \/
      (wn current = wn previous /\
       (tow current = tow previous \/
        (inject_Z (Z.of_N (tow previous)) + minsep
         <= inject_Z (Z.of_N (tow current)))%Q))) /\
  (forall minsep : float,
      tow previous < 2 ^ 53 ->
      (compare_gpstime_brate current previous (Float minsep) = 1 <->
       wn previous < wn current \/
       (wn current = wn previous /\
        (tow current = tow previous \/
         float_le_int (fadd (finite (inject_Z (Z.of_N (tow previous)))) minsep)
                      (Z.of_N (tow current)))))) /\
  (forall minsep : Q,
      tow previous < 2 ^ 53 -> tow current < 2 ^ 53 ->
      wn previous < wn current \/
      (wn current = wn previous /\
       (tow current = tow previous \/
        (inject_Z (Z.of_N (tow previous)) + minsep
         <= inject_Z (Z.of_N (tow current)))%Q)) ->
      compare_gpstime_brate current previous (Float (finite minsep)) = 1) /\
  (forall minsep : Z,
      tow previous < 2 ^ 53 ->
      (Z.abs (Z.of_N (tow previous) + minsep) < 2 ^ 53)%Z ->
      (compare_gpstime_brate current previous (Float (finite (inject_Z minsep))) = 1 <->
       wn previous < wn current \/
       (wn current = wn previous /\
        (tow current = tow previous \/
         (Z.of_N (tow previous) + minsep <= Z.of_N (tow current))%Z)))) /\
  (forall minsep : number,
      compare_gpstime_brate current previous minsep = 1 \/
      compare_gpstime_brate current previous minsep = 0).
Proof.
  split; [|split; [|split; [|split]]].
  - intros minsep. rewrite gate_cases, py_ge_exact. reflexivity.
  - intros minsep Hp. rewrite gate_cases, (py_ge_float _ _ _ Hp). reflexivity.
  - intros minsep Hp Hn H. apply gate_cases.
    destruct H as [H|[Hw [H|H]]];
      [left; exact H | right; split; [exact Hw | left; exact H] |].
    right. split; [exact Hw|]. right. apply (py_ge_float _ _ _ Hp). cbn [fadd].
    apply (round64_le_int_mono (inject_Z (Z.of_N (tow current)))); [exact H | lia |].
    pose proof (float_of_int_small _ Hn) as E. unfold float_of_int in E.
    rewrite E. apply Qle_refl.
  - intros minsep Hp Hz.
    rewrite gate_cases, (py_ge_float_int _ _ _ Hp Hz). reflexivity.
  - intros minsep. apply gate_bit.
Qed.

Lemma compare_gpstime_brate_spec_witness :
  (compare_gpstime_brate (1, 30) (1, 10) (Float (finite (4503599627370497 # 4503599627370496))) = 1 <->
   wn (1, 10) < wn (1, 30) \/
   (wn (1, 30) = wn (1, 10) /\
    (tow (1, 30) = tow (1, 10) \/
     float_le_int
       (fadd (finite (inject_Z (Z.of_N (tow (1, 10)))))
             (finite (4503599627370497 # 4503599627370496)))
       (Z.of_N (tow (1, 30)))))) /\
  compare_gpstime_brate (1, 30) (1, 10) (Float (finite (39 # 2))) = 1 /\
  (compare_gpstime_brate (1, 30) (1, 10) (Float (finite (inject_Z 20))) = 1 <->
   wn (1, 10) < wn (1, 30) \/
   (wn (1, 30) = wn (1, 10) /\
    (tow (1, 30) = tow (1, 10) \/
     (Z.of_N (tow (1, 10)%N) + 20 <= Z.of_N (tow (1, 30)%N))%Z))).
Proof.
  destruct (compare_gpstime_brate_spec (1, 30) (1, 10)) as (_ & Hf & Hs & Hz & _).
  split; [|split].
  - apply (Hf (finite (4503599627370497 # 4503599627370496))). reflexivity.
  - apply (Hs (39 # 2)); [reflexivity | reflexivity |].
    right. split; [reflexivity|]. right. vm_compute. intros C. discriminate C.
  - apply (Hz 20%Z); reflexivity.
Defined.

(** C5 as stated fails for a float separation.  [main] called with the
    rate [999.9999999999998] passes the float next above 1; the gate then
    accepts a message one unit after the last accepted one, whose time of
    week is below the exact sum: the binary64 sum of 1 and the separation is
    rounded to 2. *)
Lemma gate_rounding_counterexample :
  main_brate (float_of_decimal (9999999999999998 # 10000000000000)) =
    Some (Float (finite (4503599627370497 # 4503599627370496))) /\
  compare_gpstime_brate (1, 2) (1, 1)
    (Float (finite (4503599627370497 # 4503599627370496))) = 1 /\
  ~ (wn (1, 1) < wn (1, 2) \/
     (wn (1, 2) = wn (1, 1) /\
      (tow (1, 2) = tow (1, 1) \/
       (inject_Z (Z.of_N (tow (1, 1)%N)) + (4503599627370497 # 4503599627370496)
        <= inject_Z (Z.of_N (tow (1, 2)%N)))%Q))).
Proof.
  split; [vm_compute; reflexivity|]. split; [vm_compute; reflexivity|].
  intros [H|[_ [H|H]]]; vm_compute in H; try discriminate.
  apply H. reflexivity.
Qed.

(** C6. Rate gating: with a base input of observations of one week at
    [tow] = 0, 5, 10, 15, 20, ... and a minimum separation of 20, the base
    messages that reach the output (the ones the base pull loop accepts,
    recognisable by their originator 0, which no rover message has) are
    exactly the ones at [tow] = 0, 20, 40, ..., whatever the rover input. *)
Theorem base_rate_gating (w s : N) (n : nat) (rove : list Msg) :
  filter (fun m => sender m =? 0)
         (zip_json_generators (obs_every5 w s n) rove (Exact 20)) =
  map (fun m => set_sender m 0) (filter on_20_grid (obs_every5 w s n)).
Proof.
  unfold zip_json_generators, zip_trace.
  rewrite zip_loop_base_side; simpl.
  - rewrite obs_every5_passing. reflexivity.
  - apply slots_ok_init.
  - apply obs_from_self_timed.
Qed.




(** C8, as the code has it.  In every run the base pull loop calls
    [extract_gpstime] on each base message it reads, before the kind test,
    so the calls made there are the whole base input, whatever the kinds.
    A rover message is handed to [extract_gpstime] only at the merge
    comparison, after it was accepted (pass-through kind, non-zero
    originator); the base messages extracted again at the merge comparison
    are accepted ones too. *)
Theorem extraction_call_sites (base rove : list Msg) (brate : number) :
  base_pull_calls (zip_trace base rove brate) = base /\
  Forall (fun e =>
            match e with
            | Extract MergeBase m => pass_through m /\ sender m = 0
            | Extract MergeRove m => rove_accepts m = true
            | _ => True
            end)
         (zip_trace base rove brate).
Proof.
  split.
  - apply (zip_loop_pull_calls brate (mkState base rove None None (0, 0) (0, 0))).
  - eapply Forall_impl; [|apply zip_loop_ok, slots_ok_init].
    intros [[]|m|]; simpl; tauto.
Qed.

(** C8 as stated fails: a heartbeat read from the base is handed to
    [extract_gpstime] although its kind is not a pass-through kind. *)
Lemma extraction_before_filter_counterexample :
  py_in (msg_type (heartbeat 0)) msgs_filter = false /\
  zip_trace [heartbeat 0] [] (Exact 20) = [Extract BasePull (heartbeat 0)].
Proof. split; reflexivity. Qed.

(** C9. The splitter writes the record of every message with originator 0
    to the base file and of every other message to the rover file, in input
    order; the two files together hold each input record once; no kind is
    looked at. *)
Theorem split_log_partition (to_json : Msg -> string) (log : list Msg) :
  split_log to_json log =
  (map (record to_json) (filter (fun m => sender m =? 0) log),
   map (record to_json) (filter (fun m => negb (sender m =? 0)) log)) /\
  Permutation (fst (split_log to_json log) ++ snd (split_log to_json log))
              (map (record to_json) log).
Proof.
  unfold split_log. rewrite split_loop_filter. simpl. split; [reflexivity|].
  rewrite <- map_app. apply Permutation_map, filter_partition_perm.
Qed.

(** C10. [SBP_MSG_EPHEMERIS_QZSS] is in [msgs_filter_eph] and not in
    [msgs_filter]: its time is extractable (it is the time of ephemeris),
    and no run emits a message of that kind. *)
Theorem qzss_never_emitted (base rove : list Msg) (brate : number) :
  py_in ob.SBP_MSG_EPHEMERIS_QZSS msgs_filter_eph = true /\
  py_in ob.SBP_MSG_EPHEMERIS_QZSS msgs_filter = false /\
  (forall s toe last,
      extract_gpstime (ephemeris_qzss s toe) last = Some toe) /\
  Forall (fun m => msg_type m <> ob.SBP_MSG_EPHEMERIS_QZSS)
         (zip_json_generators base rove brate).
Proof.
  repeat split; try reflexivity.
  eapply Forall_impl; [|apply emitted_ok, zip_loop_ok, slots_ok_init].
  intros m Hm E. unfold pass_through in Hm. rewrite E in Hm. discriminate.
Qed.

(** * Further properties of the zipper *)

(** ** The rover messages of the output *)

Lemma fill_rove_filter st r g :
  fill_rove st = (r, g) ->
  (forall m, rove_msg st = Some m -> rove_accepts m = true) ->
  slot r ++ filter rove_accepts g =
  filter rove_accepts (slot (rove_msg st) ++ rove_gen st).
Proof.
  unfold fill_rove. destruct (rove_msg st) as [m|].
  - intros [= <- <-] H. simpl. rewrite (H m eq_refl). reflexivity.
  - intros H _. apply pull_rove_filter in H. exact H.
Qed.

Lemma zip_loop_rove_side brate : forall st,
  slots_ok st ->
  filter (fun m => negb (sender m =? 0)) (emitted (zip_loop brate st)) =
  filter rove_accepts (slot (rove_msg st) ++ rove_gen st).
Proof.
  apply (zip_loop_ind brate (fun st => _ -> _ = _)).
  intros st IH Hs. rewrite zip_loop_step.
  destruct (zip_step _ _) as [evs nxt] eqn:E.
  destruct (zip_step_ok _ _ _ _ Hs E) as [_ Hnxt].
  unfold zip_step in E.
  destruct (fill_base brate st) as [[[e b] lb] g] eqn:Hb.
  destruct (fill_rove st) as [r g'] eqn:Hr.
  pose proof Hb as He. apply fill_base_thinned in He as [He Hx].
  pose proof (fill_base_ok _ _ _ _ _ _ Hs Hb) as [_ Hbs].
  pose proof (fill_rove_ok _ _ _ Hs Hr) as Hrs.
  pose proof Hr as Hg. apply fill_rove_thinned in Hg.
  apply fill_rove_filter in Hr; [|apply Hs]. rewrite <- Hr.
  destruct b as [b| |]; [| |contradiction]; destruct r as [r|];
    rewrite ?extract_gpstime_defined in E;
    try destruct (_ =? 1); injection E as <- <-;
    try specialize (IH _ _ eq_refl (Hnxt _ eq_refl));
    rewrite ?emitted_app, ?He; simpl in *;
    try rewrite (proj2 Hbs); try rewrite (rove_accepts_sender _ Hrs);
    try rewrite Hrs; simpl; rewrite ?IH; simpl; rewrite ?Hrs;
    try subst g'; reflexivity.
Qed.

(** ** Where the base messages of the output come from *)

Lemma pull_base_picked brate L LB gen evs m' lb g :
  pull_base brate L LB gen = (evs, Got m', lb, g) ->
  forall X, picked X g -> picked (m' :: X) gen.
Proof.
  revert evs lb g. induction gen as [|m gen IH]; intros evs lb g; simpl.
  - discriminate.
  - rewrite extract_gpstime_defined.
    destruct (py_in _ _ && _) eqn:E.
    + intros [= <- <- <- <-] X HX. apply andb_true_iff in E as [E _].
      apply picked_keep; assumption.
    + destruct (pull_base brate L LB gen) as [[[e1 b1] l1] g1].
      intros [= <- -> <- <-] X HX. apply picked_skip. eapply IH; eauto.
Qed.

Lemma picked_empty l : picked [] l.
Proof. induction l; constructor; assumption. Qed.

Lemma zip_loop_picked brate : forall st,
  slots_ok st ->
  exists X,
    filter (fun m => sender m =? 0) (emitted (zip_loop brate st)) =
    slot (base_msg st) ++ X /\ picked X (base_gen st).
Proof.
  apply (zip_loop_ind brate (fun st => _ -> exists X, _)).
  intros st IH Hs. rewrite zip_loop_step.
  destruct (zip_step _ _) as [evs nxt] eqn:E.
  destruct (zip_step_ok _ _ _ _ Hs E) as [_ Hnxt].
  unfold zip_step in E.
  destruct (fill_base brate st) as [[[e b] lb] g] eqn:Hb.
  destruct (fill_rove st) as [r g'] eqn:Hr.
  pose proof Hb as He. apply fill_base_thinned in He as [He Hx].
  pose proof (fill_base_ok _ _ _ _ _ _ Hs Hb) as [_ Hbs].
  pose proof (fill_rove_ok _ _ _ Hs Hr) as Hrs.
  assert (Hpick : match b with
                  | Got m => forall X, picked X g ->
                      exists Y, m :: X = slot (base_msg st) ++ Y /\
                                picked Y (base_gen st)
                  | _ => base_msg st = None
                  end).
  { unfold fill_base in Hb. destruct (base_msg st) as [m|].
    - injection Hb as <- <- <- <-. intros X HX. exists X. auto.
    - destruct b as [m| |]; trivial. intros X HX. exists (m :: X).
      split; [reflexivity|]. eapply pull_base_picked; eassumption. }
  destruct b as [b| |]; [| |contradiction]; destruct r as [r|];
    rewrite ?extract_gpstime_defined in E;
    try destruct (_ =? 1); injection E as <- <-;
    try (destruct (IH _ _ eq_refl (Hnxt _ eq_refl)) as (X & HX & HP));
    rewrite ?emitted_app, ?He; simpl in *;
    try rewrite (proj2 Hbs); try rewrite (rove_accepts_sender _ Hrs); simpl;
    rewrite ?HX; simpl.
  - apply Hpick. exact HP.
  - apply Hpick. exact HP.
  - apply Hpick. exact HP.
  - rewrite Hpick. subst g. inversion HP; subst.
    exists []. split; [reflexivity | apply picked_empty].
  - rewrite Hpick. exists []. split; [reflexivity | apply picked_empty].
Qed.

Lemma picked_none l' l :
  picked l' l ->
  Forall (fun m => py_in (msg_type m) msgs_filter = false) l -> l' = [].
Proof.
  induction 1 as [|m l' l _ IH|m l' l Hm _ IH]; intros H.
  - reflexivity.
  - inversion H; subst. auto.
  - inversion H as [|? ? Hf _]; subst. unfold pass_through in Hm. congruence.
Qed.

Lemma filter_none_all {A : Type} (f : A -> bool) (l : list A) :
  filter f l = [] -> filter (fun x => negb (f x)) l = l.
Proof.
  induction l as [|x l IH]; simpl; [reflexivity|].
  destruct (f x); [discriminate|]. intros H. simpl. f_equal. auto.
Qed.

(** ** The gate when the separation is not positive *)

Lemma truthy_one : truthy 1 = true.
Proof. reflexivity. Qed.

Lemma gate_open brate t LB :
  nonpositive brate -> convertible brate LB -> gps_le LB t ->
  truthy (compare_gpstime_brate t LB brate) = true.
Proof.
  intros Hb Hc Hle.
  assert (G : compare_gpstime_brate t LB brate = 1); [|rewrite G; reflexivity].
  apply gate_cases. unfold wn, tow, gps_le in *.
  destruct Hle as [Hlt|[Hw Hle]]; [left; exact Hlt|].
  right. split; [auto|]. right.
  assert (Hq : (inject_Z (Z.of_N (snd LB)) <= inject_Z (Z.of_N (snd t)))%Q)
    by (rewrite <- Zle_Qle; lia).
  destruct brate as [q|f]; cbn [nonpositive convertible] in Hb, Hc.
  - apply py_ge_exact.
    apply Qle_trans with (inject_Z (Z.of_N (snd LB)) + 0)%Q.
    + apply Qplus_le_r. exact Hb.
    + rewrite Qplus_0_r. exact Hq.
  - apply (py_ge_float _ _ _ Hc).
    destruct f as [|s|b]; [contradiction | exact Hb |]. cbn [fadd].
    apply (round64_le_int_mono (inject_Z (Z.of_N (snd LB)))); [|lia|].
    + apply Qle_trans with (inject_Z (Z.of_N (snd LB)) + 0)%Q.
      * apply Qplus_le_r. exact Hb.
      * rewrite Qplus_0_r. apply Qle_refl.
    + pose proof (float_of_int_small _ Hc) as E.
      unfold float_of_int, tow in E. rewrite E. exact Hq.
Qed.

Lemma base_passing_open brate l : forall LB,
  nonpositive brate ->
  convertible brate LB ->
  Forall (fun m => convertible brate (gpstime_of m (0, 0))) l ->
  Forall self_timed l ->
  chained LB l ->
  base_passing brate (0, 0) LB l =
  filter (fun m => py_in (msg_type m) msgs_filter) l.
Proof.
  induction l as [|m l IH]; intros LB Hb Hv Hvs Hs Hc; simpl; [reflexivity|].
  inversion Hs as [|? ? Hm Hl]; subst. inversion Hvs as [|? ? Hvm Hvl]; subst.
  destruct Hc as [Hle Hc].
  rewrite (Hm LB) in Hle, Hc.
  rewrite (gate_open _ _ _ Hb Hv Hle), andb_true_r.
  destruct (py_in _ _).
  - f_equal. apply IH; assumption.
  - apply IH; try assumption. eapply chained_weaken; eassumption.
Qed.

(** ** Further properties: the zipper *)

(** X1. No accepted rover message is lost or reordered: the messages of
    the output with a non-zero originator are exactly the rover messages
    with a non-zero originator and a pass-through kind, in input order,
    whatever the base input and the separation. *)
Theorem rover_messages_all_emitted (base rove : list Msg) (brate : number) :
  filter (fun m => negb (sender m =? 0)) (zip_json_generators base rove brate) =
  filter rove_accepts rove.
Proof.
  unfold zip_json_generators, zip_trace.
  rewrite zip_loop_rove_side by apply slots_ok_init. reflexivity.
Qed.

(** X2. The messages of the output with originator 0 are base messages of
    pass-through kinds, in input order, each at most once, with the
    originator set to 0: the zipper invents and duplicates nothing on the
    base side. *)
Theorem base_messages_picked (base rove : list Msg) (brate : number) :
  picked (filter (fun m => sender m =? 0) (zip_json_generators base rove brate))
         base.
Proof.
  unfold zip_json_generators, zip_trace.
  destruct (zip_loop_picked brate (mkState base rove None None (0, 0) (0, 0))
              (slots_ok_init _ _ _ _)) as (X & -> & HX).
  exact HX.
Qed.

(** X3. When the base holds no message of a pass-through kind (in
    particular when it is empty), the output is the rover input filtered by
    the rover test. *)
Theorem base_silent_output (base rove : list Msg) (brate : number) :
  Forall (fun m => py_in (msg_type m) msgs_filter = false) base ->
  zip_json_generators base rove brate = filter rove_accepts rove.
Proof.
  intros H. unfold zip_json_generators, zip_trace.
  set (st := mkState base rove None None (0, 0) (0, 0)).
  change (filter rove_accepts rove)
    with (filter rove_accepts (slot (rove_msg st) ++ rove_gen st)).
  rewrite <- (zip_loop_rove_side brate st (slots_ok_init _ _ _ _)).
  symmetry. apply filter_none_all.
  destruct (zip_loop_picked brate st (slots_ok_init _ _ _ _)) as (X & -> & HX).
  eapply picked_none; eassumption.
Qed.

Lemma base_silent_output_witness :
  zip_json_generators [heartbeat 0; ephemeris_qzss 0 (1, 5)]
                      [obs_msg 1 0 7; heartbeat 7; obs_msg 1 1 0; glo_biases 7] (Exact 20) =
  filter rove_accepts [obs_msg 1 0 7; heartbeat 7; obs_msg 1 1 0; glo_biases 7].
Proof.
  apply base_silent_output. repeat constructor.
Defined.

Lemma set_sender_same m : set_sender m (sender m) = m.
Proof. destruct m. reflexivity. Qed.

Lemma filter_filter_comm {A : Type} (f g : A -> bool) (l : list A) :
  filter f (filter g l) = filter g (filter f l).
Proof.
  induction l as [|x l IH]; simpl; [reflexivity|].
  destruct (g x) eqn:Eg, (f x) eqn:Ef; simpl; rewrite ?Eg, ?Ef, IH; reflexivity.
Qed.

Lemma rove_accepts_split l :
  filter rove_accepts (filter (fun m => negb (sender m =? 0)) l) =
  filter (fun m => negb (sender m =? 0))
         (filter (fun m => py_in (msg_type m) msgs_filter) l).
Proof.
  induction l as [|m l IH]; simpl; [reflexivity|].
  assert (Hr : rove_accepts m =
               negb (sender m =? 0) && py_in (msg_type m) msgs_filter)
    by reflexivity.
  destruct (sender m =? 0) eqn:Es, (py_in (msg_type m) msgs_filter) eqn:Ep;
    simpl; rewrite ?Hr, ?Es, ?Ep; simpl; rewrite ?Es, ?IH; reflexivity.
Qed.

Lemma open_gate_base_side (base rove : list Msg) (brate : number) :
  nonpositive brate ->
  Forall (fun m => convertible brate (gpstime_of m (0, 0))) base ->
  Forall (fun m => timestamped m = true) base ->
  Sorted gps_le (thread_times (0, 0) base) ->
  filter (fun m => sender m =? 0) (zip_json_generators base rove brate) =
  map (fun m => set_sender m 0)
      (filter (fun m => py_in (msg_type m) msgs_filter) base).
Proof.
  intros Hb Hv Ht Hs. unfold zip_json_generators, zip_trace.
  assert (Hself : Forall self_timed base)
    by (eapply Forall_impl; [|exact Ht]; apply timestamped_self_timed).
  rewrite zip_loop_base_side; simpl;
    [|apply slots_ok_init | exact Hself].
  rewrite base_passing_open; try assumption; [reflexivity | |].
  - destruct brate; [exact I | reflexivity].
  - apply sorted_thread_chained. exact Hs.
Qed.

Lemma exact_convertible (q : Q) (l : list Msg) :
  Forall (fun m => convertible (Exact q) (gpstime_of m (0, 0))) l.
Proof. apply Forall_forall. intros m _. exact I. Qed.

Lemma split_zip_perm (log : list Msg) (brate : number) :
  filter (fun m => sender m =? 0)
    (zip_json_generators (filter (fun m => sender m =? 0) log)
                         (filter (fun m => negb (sender m =? 0)) log) brate) =
  map (fun m => set_sender m 0)
      (filter (fun m => py_in (msg_type m) msgs_filter)
              (filter (fun m => sender m =? 0) log)) ->
  Permutation
    (zip_json_generators (filter (fun m => sender m =? 0) log)
                         (filter (fun m => negb (sender m =? 0)) log) brate)
    (filter (fun m => py_in (msg_type m) msgs_filter) log).
Proof.
  intros Hbase.
  set (out := zip_json_generators _ _ _) in *.
  apply Permutation_trans with
    (filter (fun m => sender m =? 0) out ++
     filter (fun m => negb (sender m =? 0)) out);
    [apply Permutation_sym, filter_partition_perm|].
  rewrite Hbase. unfold out, zip_json_generators, zip_trace.
  rewrite zip_loop_rove_side by apply slots_ok_init. simpl.
  rewrite (filter_filter_comm _ (fun m => sender m =? 0)).
  rewrite rove_accepts_split.
  rewrite (map_ext_in _ (fun m => m)), map_id;
    [apply filter_partition_perm|].
  intros m Hm. apply filter_In in Hm as [_ Hm]. apply N.eqb_eq in Hm.
  rewrite <- Hm. apply set_sender_same.
Qed.

(** X4. A separation that is not positive switches the gate off for a base
    input of timestamped kinds in time order: every base message of a
    pass-through kind reaches the output. *)
Theorem open_gate_keeps_base (base rove : list Msg) (brate : Q) :
  (brate <= 0)%Q ->
  Forall (fun m => timestamped m = true) base ->
  Sorted gps_le (thread_times (0, 0) base) ->
  filter (fun m => sender m =? 0) (zip_json_generators base rove (Exact brate)) =
  map (fun m => set_sender m 0)
      (filter (fun m => py_in (msg_type m) msgs_filter) base).
Proof.
  intros Hb. apply open_gate_base_side; [exact Hb | apply exact_convertible].
Qed.

Lemma open_gate_keeps_base_witness :
  filter (fun m => sender m =? 0)
    (zip_json_generators
       [obs_msg 1 0 9; obs_msg 1 5 9; ephemeris_qzss 9 (1, 5); obs_msg 1 5 9]
       [obs_msg 1 3 7] (Exact 0)) =
  map (fun m => set_sender m 0)
    (filter (fun m => py_in (msg_type m) msgs_filter)
       [obs_msg 1 0 9; obs_msg 1 5 9; ephemeris_qzss 9 (1, 5); obs_msg 1 5 9]).
Proof.
  apply open_gate_keeps_base;
    [ discriminate
    | repeat constructor
    | repeat (constructor; try (unfold gps_le; simpl; lia)) ].
Defined.

(** X5. Splitting then zipping, as [main] does for a single combined log:
    the two halves the splitter routes (originator 0, originator not 0) are
    zipped back.  With a separation that is not positive and the messages of
    originator 0 of timestamped kinds in time order, the output holds
    exactly the messages of pass-through kinds of the log, each once. *)
Theorem split_then_zip (log : list Msg) (brate : Q) :
  (brate <= 0)%Q ->
  Forall (fun m => timestamped m = true) (filter (fun m => sender m =? 0) log) ->
  Sorted gps_le (thread_times (0, 0) (filter (fun m => sender m =? 0) log)) ->
  Permutation
    (zip_json_generators (filter (fun m => sender m =? 0) log)
                         (filter (fun m => negb (sender m =? 0)) log) (Exact brate))
    (filter (fun m => py_in (msg_type m) msgs_filter) log).
Proof.
  intros Hb Ht Hs. apply split_zip_perm.
  apply open_gate_base_side; [exact Hb | apply exact_convertible | exact Ht | exact Hs].
Qed.

Lemma split_then_zip_witness :
  Permutation
    (zip_json_generators
       (filter (fun m => sender m =? 0)
          [obs_msg 1 0 0; obs_msg 1 0 7; heartbeat 7; obs_msg 1 5 0; glo_biases 7])
       (filter (fun m => negb (sender m =? 0))
          [obs_msg 1 0 0; obs_msg 1 0 7; heartbeat 7; obs_msg 1 5 0; glo_biases 7])
       (Exact 0))
    (filter (fun m => py_in (msg_type m) msgs_filter)
       [obs_msg 1 0 0; obs_msg 1 0 7; heartbeat 7; obs_msg 1 5 0; glo_biases 7]).
Proof.
  apply split_then_zip;
    [ discriminate
    | repeat constructor
    | repeat (constructor; try (unfold gps_le; simpl; lia)) ].
Defined.

(** ** Further properties: the comparators *)

Lemma gate_zero_le current previous :
  compare_gpstime_brate current previous (Exact 0) = 1 <-> gps_le previous current.
Proof.
  rewrite gate_cases, py_ge_exact, Qplus_0_r, <- Zle_Qle.
  unfold gps_le, wn, tow. lia.
Qed.

(** X6. [compare_gpstime] decides the lexicographic order: it returns 0
    exactly when its first argument is not after the second and 1 exactly
    when the second is strictly earlier; of the two ways of comparing two
    times at least one gives 0. *)
Theorem compare_gpstime_order (g0 g1 : GpsTime) :
  (compare_gpstime g0 g1 = 0 <-> gps_le g0 g1) /\
  (compare_gpstime g0 g1 = 1 <-> ~ gps_le g0 g1) /\
  (compare_gpstime g0 g1 = 0 \/ compare_gpstime g1 g0 = 0).
Proof.
  unfold compare_gpstime, gps_le.
  destruct (N.ltb_spec (fst g0) (fst g1)), (N.ltb_spec (fst g1) (fst g0)),
           (N.ltb_spec (snd g0) (snd g1)), (N.ltb_spec (snd g1) (snd g0));
    repeat split; intros; try discriminate; try lia; auto.
Qed.

(** X7. With a separation of 0 the rate gate accepts exactly the times
    that are not earlier than the last accepted one: it then agrees with
    [compare_gpstime]. *)
Theorem gate_zero_not_earlier (current previous : GpsTime) :
  (compare_gpstime_brate current previous (Exact 0) = 1 <->
   gps_le previous current) /\
  (compare_gpstime_brate current previous (Exact 0) = 1 <->
   compare_gpstime previous current = 0).
Proof.
  split; [apply gate_zero_le|].
  rewrite gate_zero_le. symmetry. apply compare_gpstime_le.
Qed.

(** X8. The gate is monotone in the separation: a message accepted with a
    separation [brate] is accepted with any smaller one. *)
Theorem gate_monotone (g0 g1 : GpsTime) (brate brate' : Q) :
  (brate' <= brate)%Q ->
  compare_gpstime_brate g0 g1 (Exact brate) = 1 ->
  compare_gpstime_brate g0 g1 (Exact brate') = 1.
Proof.
  intros Hb. rewrite !gate_cases, !py_ge_exact.
  intros [H|[Hw [H|H]]]; [auto | auto |].
  right. split; [exact Hw|]. right.
  eapply Qle_trans; [|exact H]. apply Qplus_le_r. exact Hb.
Qed.

Lemma gate_monotone_witness :
  compare_gpstime_brate (1, 30) (1, 0) (Exact 5) = 1.
Proof.
  apply (gate_monotone (1, 30) (1, 0) 20 5); [discriminate | reflexivity].
Defined.

(** * The file names of [main] *)

(** ** What the pattern matches *)

Lemma is_sep_not_LF c : is_sep c = true -> Ascii.eqb c re.LF = false.
Proof.
  unfold is_sep. simpl. rewrite orb_false_r. intros H.
  apply orb_true_iff in H as [H|H]; apply Ascii.eqb_eq in H; subst; reflexivity.
Qed.

Lemma at_end_cons c e : e <> [] -> re.at_end (c :: e) = false.
Proof. destruct e; [contradiction | reflexivity]. Qed.

Lemma greedy_to_end rest st caps e :
  (forall prev pos s,
      rest prev pos s =
      if re.at_end s then Some (pos, caps ++ [(st, pos)]) else None) ->
  forall prev pos,
  re.star_greedy (re.NoneOf ["\"%char; "/"%char]) rest prev pos e =
  if forallb (fun x => negb (is_sep x)) e
  then Some ((pos + List.length e)%nat, caps ++ [(st, (pos + List.length e)%nat)])
  else None.
Proof.
  intros Hrest. induction e as [|c e IH]; intros prev pos.
  - cbn [re.star_greedy]. rewrite Hrest. simpl. rewrite Nat.add_0_r. reflexivity.
  - cbn [re.star_greedy forallb re.in_class]. fold (is_sep c).
    destruct (is_sep c) eqn:Ec; cbn [negb andb].
    + rewrite Hrest. destruct e as [|c' e]; cbn [re.at_end]; [|reflexivity].
      rewrite (is_sep_not_LF _ Ec). reflexivity.
    + rewrite IH. destruct (forallb _ e) eqn:Ee.
      * cbn [List.length]. rewrite Nat.add_succ_r. reflexivity.
      * rewrite Hrest, at_end_cons; [reflexivity|].
        intros ->. discriminate Ee.
Qed.

(** The pattern after the lazy star, tried at a position: it succeeds on a
    dot followed by no separator, and then runs to the end. *)
Lemma after_lazy g prev pos s :
  re.run [re.GroupClose; re.GroupOpen; re.One (re.Lit "."%char);
          re.StarGreedy (re.NoneOf ["\"%char; "/"%char]); re.GroupClose;
          re.AheadEnd] [g] [] prev pos s =
  match s with
  | c :: e =>
      if Ascii.eqb c "."%char && forallb (fun x => negb (is_sep x)) e
      then Some ((pos + List.length s)%nat,
                 [(g, pos); (pos, (pos + List.length s)%nat)])
      else None
  | [] => None
  end.
Proof.
  destruct s as [|c e]; [reflexivity|].
  cbn [re.run re.in_class app]. destruct (Ascii.eqb c "."%char); [|reflexivity].
  rewrite (greedy_to_end _ pos [(g, pos)]) by (intros; reflexivity).
  cbn [andb List.length app]. rewrite Nat.add_succ_r. reflexivity.
Qed.

Lemma lazy_scan rest g s :
  (forall prev pos s,
      rest prev pos s =
      match s with
      | c :: e =>
          if Ascii.eqb c "."%char && forallb (fun x => negb (is_sep x)) e
          then Some ((pos + List.length s)%nat,
                     [(g, pos); (pos, (pos + List.length s)%nat)])
          else None
      | [] => None
      end) ->
  forall prev pos,
  re.star_lazy re.Dot rest prev pos s =
  match split_ext s with
  | Some (stem, ext) =>
      Some ((pos + List.length s)%nat,
            [(g, (pos + List.length stem)%nat);
             ((pos + List.length stem)%nat, (pos + List.length s)%nat)])
  | None => None
  end.
Proof.
  intros Hrest. induction s as [|c s IH]; intros prev pos.
  - cbn [re.star_lazy split_ext]. rewrite Hrest. reflexivity.
  - cbn [re.star_lazy split_ext]. rewrite Hrest.
    destruct (Ascii.eqb c "."%char && _).
    + cbn [List.length]. rewrite Nat.add_0_r. reflexivity.
    + cbn [re.in_class]. destruct (Ascii.eqb c re.LF); [reflexivity|].
      cbn [negb]. rewrite IH. destruct (split_ext s) as [[stem ext]|]; [|reflexivity].
      cbn [List.length]. rewrite !Nat.add_succ_r. reflexivity.
Qed.

Lemma search_at_behind p s : forall c pos,
  re.search_at (re.BehindStart :: p) (Some c) pos s = None.
Proof.
  induction s as [|c' s IH]; intros c pos; [reflexivity|].
  cbn [re.search_at re.run]. apply IH.
Qed.

Lemma search_split_ext s :
  re.search filepath_split_ext_regex s =
  match split_ext s with
  | Some (stem, ext) =>
      Some (List.length s,
            [(0%nat, List.length stem); (List.length stem, List.length s)])
  | None => None
  end.
Proof.
  unfold re.search, filepath_split_ext_regex.
  destruct s as [|c s]; [reflexivity|].
  cbn [re.search_at].
  set (tail := [re.GroupClose; re.GroupOpen; re.One (re.Lit "."%char);
                re.StarGreedy (re.NoneOf ["\"%char; "/"%char]); re.GroupClose;
                re.AheadEnd]).
  change (re.run (re.BehindStart :: re.GroupOpen :: re.StarLazy re.Dot :: tail)
            [] [] None 0%nat (c :: s))
    with (re.star_lazy re.Dot (re.run tail [0%nat] []) None 0%nat (c :: s)).
  rewrite (lazy_scan (re.run tail [0%nat] []) 0%nat)
    by (intros; apply after_lazy).
  destruct (split_ext (c :: s)) as [[stem ext]|]; [reflexivity|].
  apply search_at_behind.
Qed.

Lemma split_ext_app s : forall stem ext,
  split_ext s = Some (stem, ext) -> s = stem ++ ext.
Proof.
  induction s as [|c s IH]; intros stem ext; cbn [split_ext]; [discriminate|].
  destruct (_ && _); [intros [= <- <-]; reflexivity|].
  destruct (Ascii.eqb c re.LF); [discriminate|].
  destruct (split_ext s) as [[st ex]|]; [|discriminate].
  intros [= <- <-]. simpl. f_equal. apply IH. reflexivity.
Qed.

Lemma groups_split_ext s stem ext :
  split_ext s = Some (stem, ext) ->
  option_map (fun m => re.groups m s) (re.search filepath_split_ext_regex s) =
  Some [stem; ext].
Proof.
  intros H. rewrite search_split_ext, H. apply split_ext_app in H. subst s.
  cbn [option_map re.groups snd map]. rewrite Nat.sub_0_r. cbn [skipn].
  rewrite firstn_app, Nat.sub_diag, firstn_all. cbn [firstn]. rewrite app_nil_r.
  rewrite skipn_app, skipn_all, Nat.sub_diag. cbn [skipn app].
  rewrite length_app, Nat.add_sub_swap, Nat.sub_diag by reflexivity.
  cbn [Nat.add]. rewrite firstn_all. reflexivity.
Qed.

Lemma forallb_not_sep e :
  forallb (fun x => negb (is_sep x)) e = true <->
  Forall (fun c => is_sep c = false) e.
Proof.
  rewrite forallb_forall, Forall_forall. split; intros H c Hc.
  - apply negb_true_iff. auto.
  - apply negb_true_iff. auto.
Qed.

Lemma not_forallb_not_sep e :
  forallb (fun x => negb (is_sep x)) e = false ->
  Exists (fun c => is_sep c = true) e.
Proof.
  induction e as [|c e IH]; simpl; [discriminate|].
  destruct (is_sep c) eqn:E; simpl; [constructor; exact E|].
  intros H. apply Exists_cons_tl. auto.
Qed.

Lemma split_ext_sound s : forall stem ext,
  split_ext s = Some (stem, ext) -> splits s stem ext.
Proof.
  induction s as [|c s IH]; intros stem ext; cbn [split_ext]; [discriminate|].
  destruct (Ascii.eqb c "."%char && _) eqn:E.
  - intros [= <- <-]. apply andb_true_iff in E as [E1 E2].
    apply Ascii.eqb_eq in E1. subst c. repeat split.
    + exists s. split; [reflexivity | apply forallb_not_sep; exact E2].
    + intros [].
    + intros [|? ?] q H; discriminate H.
  - destruct (Ascii.eqb c re.LF) eqn:EL; [discriminate|].
    destruct (split_ext s) as [[st ex]|]; [|discriminate].
    intros [= <- <-]. destruct (IH _ _ eq_refl) as (Hs & (e & He & Hne) & Hnl & Hmin).
    repeat split.
    + simpl. f_equal. exact Hs.
    + exists e. auto.
    + intros [H|H]; [|auto]. subst c. discriminate EL.
    + intros [|c' p] q H; injection H as -> ->; [|eauto].
      rewrite Ascii.eqb_refl in E. simpl in E.
      apply not_forallb_not_sep in E. rewrite Hs, He in E.
      apply Exists_app in E as [E|E]; [exact E|].
      inversion E as [? ? Hd|? ? Hd]; subst; [discriminate Hd|].
      exfalso. apply Exists_exists in Hd as (x & Hx & Hsx).
      rewrite Forall_forall in Hne. rewrite (Hne x Hx) in Hsx. discriminate.
Qed.

Lemma split_ext_complete stem : forall s ext,
  splits s stem ext -> split_ext s = Some (stem, ext).
Proof.
  induction stem as [|c stem IH]; intros s ext (Hs & (e & He & Hne) & Hnl & Hmin).
  - subst. cbn [app split_ext]. rewrite Ascii.eqb_refl.
    apply forallb_not_sep in Hne. rewrite Hne. reflexivity.
  - subst s. cbn [app split_ext].
    assert (E : Ascii.eqb c "."%char &&
                forallb (fun x => negb (is_sep x)) (stem ++ ext) = false).
    { destruct (Ascii.eqb c "."%char) eqn:Ec; [|reflexivity]. simpl.
      apply Ascii.eqb_eq in Ec. subst c.
      specialize (Hmin [] stem eq_refl).
      apply Exists_exists in Hmin as (x & Hx & Hsx).
      destruct (forallb _ (stem ++ ext)) eqn:F; [|reflexivity].
      rewrite forallb_forall in F. specialize (F x (in_or_app _ _ _ (or_introl Hx))).
      rewrite Hsx in F. discriminate. }
    rewrite E.
    assert (EL : Ascii.eqb c re.LF = false).
    { apply Ascii.eqb_neq. intros ->. apply Hnl. left. reflexivity. }
    rewrite EL, (IH (stem ++ ext) ext); [reflexivity|].
    repeat split.
    + exists e. auto.
    + intros H. apply Hnl. right. exact H.
    + intros p q H. apply (Hmin (c :: p) q). simpl. f_equal. exact H.
Qed.

(** ** Further properties: the file names of [main] *)

(** X9. What [filepath_split_ext_regex] finds in a path: the two groups
    are [stem] and [ext] exactly when the path is [stem ++ ext], [ext] is a
    dot followed by characters other than a slash and a backslash, this dot
    is the first one with no separator after it, and no newline precedes it;
    the search fails exactly when the path has no such split. *)
Theorem split_regex_spec (s : str) :
  (forall stem ext,
      option_map (fun m => re.groups m s) (re.search filepath_split_ext_regex s)
      = Some [stem; ext] <-> splits s stem ext) /\
  (re.search filepath_split_ext_regex s = None <->
   ~ exists stem ext, splits s stem ext).
Proof.
  split.
  - intros stem ext. split.
    + rewrite search_split_ext.
      destruct (split_ext s) as [[st ex]|] eqn:E; [|discriminate].
      pose proof (split_ext_app _ _ _ E) as ->.
      cbn [option_map re.groups snd map]. intros H.
      pose proof (groups_split_ext _ _ _ E) as G.
      rewrite search_split_ext, E in G. cbn [option_map re.groups snd map] in G.
      rewrite G in H. injection H as <- <-. apply split_ext_sound. exact E.
    + intros H. apply groups_split_ext, split_ext_complete. exact H.
  - rewrite search_split_ext. split.
    + destruct (split_ext s) as [[st ex]|] eqn:E; [discriminate|].
      intros _ (stem & ext & H). apply split_ext_complete in H. congruence.
    + intros H. destruct (split_ext s) as [[st ex]|] eqn:E; [|reflexivity].
      exfalso. apply H. exists st, ex. apply split_ext_sound. exact E.
Qed.

Lemma main_names_eq rv b o :
  main_names rv b o =
  match b, split_ext rv with
  | [], Some (stem, ext) =>
      inr (mkNames (stem ++ list_ascii_of_string "_base" ++ ext)
                   (stem ++ list_ascii_of_string "_rover" ++ ext)
                   match o with
                   | Some (_ :: _) => Some (stem ++ list_ascii_of_string "_zip" ++ ext)
                   | _ => None
                   end)
  | _, _ => inl AttributeError
  end.
Proof.
  unfold main_names. destruct b as [|c b]; [|reflexivity].
  destruct (split_ext rv) as [[stem ext]|] eqn:E.
  - pose proof (groups_split_ext _ _ _ E) as G.
    destruct (re.search filepath_split_ext_regex rv) as [m|]; [|discriminate G].
    injection G as ->. cbn [nth]. destruct o as [[|? ?]|]; reflexivity.
  - rewrite search_split_ext, E. reflexivity.
Qed.

(** X10. When [main] gets its file names: exactly when no base log is given
    on the command line and the rover path splits into a stem and an
    extension; the names are then the stem followed by [_base], [_rover]
    and, when an output name is given, [_zip], and the extension.  In every
    other case, also whenever a base log is given, an [AttributeError] ends
    [main]. *)
Theorem main_names_spec (rv b : str) (o : option str) :
  (forall n,
      main_names rv b o = inr n <->
      b = [] /\
      exists stem ext,
        splits rv stem ext /\
        base_log n = stem ++ list_ascii_of_string "_base" ++ ext /\
        rover_log n = stem ++ list_ascii_of_string "_rover" ++ ext /\
        zip_filename n =
          match o with
          | Some (_ :: _) => Some (stem ++ list_ascii_of_string "_zip" ++ ext)
          | _ => None
          end) /\
  (b <> [] \/ ~ (exists stem ext, splits rv stem ext) <->
   main_names rv b o = inl AttributeError).
Proof.
  rewrite main_names_eq. split.
  - intros n. split.
    + destruct b as [|c b]; [|discriminate].
      destruct (split_ext rv) as [[stem ext]|] eqn:E; [|discriminate].
      intros [= <-]. split; [reflexivity|]. exists stem, ext.
      split; [apply split_ext_sound; exact E | auto].
    + intros (-> & stem & ext & H & Hb & Hr & Hz).
      apply split_ext_complete in H. rewrite H.
      destruct n as [nb nr nz]. simpl in *. subst. reflexivity.
  - split.
    + intros [H|H].
      * destruct b; [contradiction | reflexivity].
      * destruct b; [|reflexivity].
        destruct (split_ext rv) as [[stem ext]|] eqn:E; [|reflexivity].
        exfalso. apply H. exists stem, ext. apply split_ext_sound. exact E.
    + destruct b as [|c b]; [|intros _; left; discriminate].
      destruct (split_ext rv) as [[stem ext]|] eqn:E; [discriminate|].
      intros _. right. intros (stem & ext & H).
      apply split_ext_complete in H. congruence.
Qed.

(** X11. The files [main] writes are never the log it reads: the derived
    names differ from the rover path given on the command line, and from
    each other. *)
Theorem main_names_fresh (rv b : str) (o : option str) (n : log_names) :
  main_names rv b o = inr n ->
  base_log n <> rv /\ rover_log n <> rv /\ base_log n <> rover_log n /\
  (forall z, zip_filename n = Some z ->
             z <> rv /\ z <> base_log n /\ z <> rover_log n).
Proof.
  rewrite main_names_eq. destruct b as [|c b]; [|discriminate].
  destruct (split_ext rv) as [[stem ext]|] eqn:E; [|discriminate].
  apply split_ext_app in E. subst rv. intros [= <-]. cbn [base_log rover_log zip_filename].
  assert (L : forall (x y : str), List.length x <> List.length y -> x <> y)
    by (intros x y H ->; apply H; reflexivity).
  repeat split; try (apply L; rewrite !length_app; simpl; lia).
  all: destruct o as [[|? ?]|]; try discriminate; injection H as <-;
    apply L; rewrite !length_app; simpl; lia.
Qed.

Lemma main_names_fresh_witness :
  let rv := list_ascii_of_string "logs/run.1/rover.sbp.json" in
  let n := mkNames (list_ascii_of_string "logs/run.1/rover_base.sbp.json")
                   (list_ascii_of_string "logs/run.1/rover_rover.sbp.json")
                   (Some (list_ascii_of_string "logs/run.1/rover_zip.sbp.json")) in
  base_log n <> rv /\ rover_log n <> rv /\ base_log n <> rover_log n /\
  (forall z, zip_filename n = Some z ->
             z <> rv /\ z <> base_log n /\ z <> rover_log n).
Proof.
  apply (main_names_fresh (list_ascii_of_string "logs/run.1/rover.sbp.json")
           [] (Some (list_ascii_of_string "out"))).
  reflexivity.
Defined.

(** * The log manager *)

(** ** Splitting a name at its dots *)

Lemma str_eqb_eq a : forall b, log_manager.str_eqb a b = true <-> a = b.
Proof.
  induction a as [|x a IH]; intros [|y b]; simpl; try (split; [discriminate|discriminate]).
  - split; reflexivity.
  - rewrite andb_true_iff, Ascii.eqb_eq, IH. split.
    + intros [-> ->]. reflexivity.
    + intros [= -> ->]. auto.
Qed.

Lemma split_not_nil s sep : log_manager.split s sep <> [].
Proof.
  destruct s as [|c s]; simpl; [discriminate|].
  destruct (Ascii.eqb c sep); [discriminate|].
  destruct (log_manager.split s sep); discriminate.
Qed.

Lemma split_no_sep sep w :
  ~ In sep w -> log_manager.split w sep = [w].
Proof.
  induction w as [|c w IH]; intros H; simpl; [reflexivity|].
  destruct (Ascii.eqb_spec c sep) as [->|_]; [exfalso; apply H; left; reflexivity|].
  rewrite IH; [reflexivity|]. intros Hw. apply H. right. exact Hw.
Qed.

Lemma split_app sep p : forall w,
  log_manager.split (p ++ sep :: w) sep =
  log_manager.split p sep ++ log_manager.split w sep.
Proof.
  induction p as [|c p IH]; intros w; simpl.
  - rewrite Ascii.eqb_refl. reflexivity.
  - destruct (Ascii.eqb c sep); [rewrite IH; reflexivity|].
    rewrite IH. destruct (log_manager.split p sep) as [|x xs] eqn:E;
      [exfalso; exact (split_not_nil _ _ E) | reflexivity].
Qed.

(** A string has no separator, or a last one. *)
Lemma last_sep (sep : ascii) (s : str) :
  ~ In sep s \/ exists p w, s = p ++ sep :: w /\ ~ In sep w.
Proof.
  induction s as [|c s IH]; [left; intros []|].
  destruct IH as [H|(p & w & -> & Hw)].
  - destruct (Ascii.eqb_spec c sep) as [->|Hc].
    + right. exists [], s. auto.
    + left. intros [E|E]; [exact (Hc E) | exact (H E)].
  - right. exists (c :: p), w. auto.
Qed.

Lemma last_split_app sep p w :
  ~ In sep w -> last (log_manager.split (p ++ sep :: w) sep) [] = w.
Proof.
  intros H. rewrite split_app, (split_no_sep _ _ H). apply last_last.
Qed.

Lemma sbp_no_dot : ~ In "."%char (list_ascii_of_string "sbp").
Proof. simpl. intros [H|[H|[H|[]]]]; discriminate H. Qed.

Lemma is_sbp_iff f :
  log_manager.is_sbp f = true <->
  f = list_ascii_of_string "sbp" \/
  exists p, f = p ++ list_ascii_of_string ".sbp".
Proof.
  unfold log_manager.is_sbp. rewrite str_eqb_eq. split.
  - destruct (last_sep "."%char f) as [H|(p & w & -> & Hw)].
    + rewrite (split_no_sep _ _ H). simpl. auto.
    + rewrite (last_split_app _ _ _ Hw). intros ->. right. exists p. reflexivity.
  - intros [->|[p ->]].
    + rewrite (split_no_sep _ _ sbp_no_dot). reflexivity.
    + apply (last_split_app "."%char p (list_ascii_of_string "sbp") sbp_no_dot).
Qed.

Lemma sbp_loop_filter fs : forall acc,
  log_manager.sbp_loop fs acc = acc ++ filter log_manager.is_sbp fs.
Proof.
  induction fs as [|f fs IH]; intros acc; simpl.
  - rewrite app_nil_r. reflexivity.
  - destruct (log_manager.is_sbp f); rewrite IH, <- ?app_assoc; reflexivity.
Qed.

(** ** The loops of [download] and [remove] *)

Section DeviceFacts.

Variable isspace : ascii -> bool.
Variable literal_eval : str -> option (list str).
Variable str_of_list : list str -> str.
Variable readdir : str -> list str.
Variable read : str -> str.

Lemma removed_remove_loop lp fs : forall i t,
  log_manager.removed (log_manager.remove_loop lp fs i t) =
  map (fun f => lp ++ log_manager.slash ++ f) fs.
Proof.
  induction fs as [|f fs IH]; intros i t; simpl; [reflexivity|].
  f_equal. apply IH.
Qed.

Lemma progress_remove_loop lp fs : forall i t,
  log_manager.progress (log_manager.remove_loop lp fs i t) =
  map (fun k => (i + N.of_nat k, t)) (seq 0 (List.length fs)).
Proof.
  induction fs as [|f fs IH]; intros i t; simpl; [reflexivity|].
  rewrite N.add_0_r. f_equal. rewrite IH, <- seq_shift, map_map.
  apply map_ext. intros k. f_equal. lia.
Qed.

Lemma written_download_loop lp dp fs : forall i t,
  log_manager.written (log_manager.download_loop read lp dp fs i t) =
  map (fun f => (dp ++ log_manager.slash ++ f, read (lp ++ f))) fs.
Proof.
  induction fs as [|f fs IH]; intros i t; simpl; [reflexivity|].
  f_equal. apply IH.
Qed.

Lemma reads_download_loop lp dp fs : forall i t,
  log_manager.reads (log_manager.download_loop read lp dp fs i t) =
  map (fun f => lp ++ f) fs.
Proof.
  induction fs as [|f fs IH]; intros i t; simpl; [reflexivity|].
  f_equal. apply IH.
Qed.

Lemma removed_download_loop lp dp fs : forall i t,
  log_manager.removed (log_manager.download_loop read lp dp fs i t) = [].
Proof.
  induction fs as [|f fs IH]; intros i t; simpl; [reflexivity | apply IH].
Qed.

Lemma progress_download_loop lp dp fs : forall i t,
  log_manager.progress (log_manager.download_loop read lp dp fs i t) =
  map (fun k => (i + N.of_nat k, t)) (seq 0 (List.length fs)).
Proof.
  induction fs as [|f fs IH]; intros i t; simpl; [reflexivity|].
  rewrite N.add_0_r. f_equal. rewrite IH, <- seq_shift, map_map.
  apply map_ext. intros k. f_equal. lia.
Qed.

(** ** Stripping keeps the extension *)

Lemma lstrip_keep x r p :
  isspace x = false ->
  exists p', log_manager.lstrip isspace (p ++ x :: r) = p' ++ x :: r.
Proof.
  intros Hx. induction p as [|c p [p' IH]]; simpl.
  - rewrite Hx. exists []. reflexivity.
  - destruct (isspace c); [exists p'; exact IH | exists (c :: p); reflexivity].
Qed.

Lemma strip_keep x y mid p :
  isspace x = false -> isspace y = false ->
  exists p', log_manager.strip isspace (p ++ x :: mid ++ [y]) = p' ++ x :: mid ++ [y].
Proof.
  intros Hx Hy. unfold log_manager.strip.
  destruct (lstrip_keep x (mid ++ [y]) p Hx) as [p' ->]. exists p'.
  replace (p' ++ x :: mid ++ [y]) with ((p' ++ x :: mid) ++ [y])
    by (rewrite <- app_assoc; reflexivity).
  rewrite rev_app_distr. simpl. rewrite Hy.
  change (y :: rev (p' ++ x :: mid)) with (rev [y] ++ rev (p' ++ x :: mid)).
  rewrite <- rev_app_distr, rev_involutive. reflexivity.
Qed.

Lemma strip_is_sbp f :
  Forall (fun c => isspace c = false) (list_ascii_of_string ".sbp") ->
  log_manager.is_sbp f = true ->
  log_manager.is_sbp (log_manager.strip isspace f) = true.
Proof.
  intros H. inversion H as [|? ? Hdot H1]; subst.
  inversion H1 as [|? ? Hs H2]; subst. inversion H2 as [|? ? Hb H3]; subst.
  inversion H3 as [|? ? Hp _]; subst.
  rewrite !is_sbp_iff. intros [->|[p ->]].
  - left. destruct (strip_keep "s"%char "p"%char ["b"%char] [] Hs Hp) as [p' E].
    unfold log_manager.strip in *. simpl in *. rewrite Hs in *. simpl in *.
    rewrite Hp in *. reflexivity.
  - right.
    destruct (strip_keep "."%char "p"%char ["s"%char; "b"%char] p Hdot Hp) as [p' E].
    exists p'. exact E.
Qed.

Lemma filter_all {A : Type} (f : A -> bool) (l : list A) :
  Forall (fun x => f x = true) l -> filter f l = l.
Proof.
  induction 1 as [|x l Hx _ IH]; simpl; [reflexivity|].
  rewrite Hx, IH. reflexivity.
Qed.

End DeviceFacts.

Lemma progress_from_one (t : N) (n : nat) :
  map (fun k => (1 + N.of_nat k, t)) (seq 0 n) =
  map (fun k => (N.of_nat k, t)) (seq 1 n).
Proof.
  rewrite <- seq_shift, map_map. apply map_ext. intros k. f_equal. lia.
Qed.

Lemma removed_app e1 e2 :
  log_manager.removed (e1 ++ e2) = log_manager.removed e1 ++ log_manager.removed e2.
Proof. apply flat_map_app. Qed.

Lemma reads_app e1 e2 :
  log_manager.reads (e1 ++ e2) = log_manager.reads e1 ++ log_manager.reads e2.
Proof. apply flat_map_app. Qed.

Lemma written_app e1 e2 :
  log_manager.written (e1 ++ e2) = log_manager.written e1 ++ log_manager.written e2.
Proof. apply flat_map_app. Qed.

Lemma progress_app e1 e2 :
  log_manager.progress (e1 ++ e2) =
  log_manager.progress e1 ++ log_manager.progress e2.
Proof. apply flat_map_app. Qed.

Lemma quiet_remove_loop lp fs : forall i t,
  log_manager.reads (log_manager.remove_loop lp fs i t) = [] /\
  log_manager.written (log_manager.remove_loop lp fs i t) = [].
Proof.
  induction fs as [|f fs IH]; intros i t; simpl; [auto | apply IH].
Qed.

Lemma remove_events isspace literal_eval log_path log_list l :
  literal_eval log_list = Some l ->
  exists evs,
    log_manager.remove isspace literal_eval log_path log_list = Some evs /\
    log_manager.removed evs =
      map (fun f => log_path ++ log_manager.slash ++ f)
          (filter log_manager.is_sbp (map (log_manager.strip isspace) l)) /\
    log_manager.progress evs =
      map (fun k => (N.of_nat k,
                     N.of_nat (List.length
                       (filter log_manager.is_sbp (map (log_manager.strip isspace) l)))))
          (seq 1 (List.length
                    (filter log_manager.is_sbp (map (log_manager.strip isspace) l)))) /\
    log_manager.reads evs = [] /\ log_manager.written evs = [].
Proof.
  intros E. unfold log_manager.remove. rewrite E. eexists. split; [reflexivity|].
  rewrite sbp_loop_filter, app_nil_l.
  set (files := filter _ _).
  rewrite !removed_app, !progress_app, !reads_app, !written_app.
  rewrite removed_remove_loop, progress_remove_loop, progress_from_one.
  destruct (quiet_remove_loop log_path files 1 (N.of_nat (List.length files)))
    as [-> ->].
  cbn. rewrite !app_nil_r. auto.
Qed.

Lemma download_events isspace literal_eval read log_path log_list dest_path l :
  literal_eval log_list = Some l ->
  exists evs,
    log_manager.download isspace literal_eval read log_path log_list dest_path
      = Some evs /\
    log_manager.written evs =
      map (fun f => (dest_path ++ log_manager.slash ++ f, read (log_path ++ f)))
          (filter log_manager.is_sbp (map (log_manager.strip isspace) l)) /\
    log_manager.reads evs =
      map (fun f => log_path ++ f)
          (filter log_manager.is_sbp (map (log_manager.strip isspace) l)) /\
    log_manager.progress evs =
      map (fun k => (N.of_nat k,
                     N.of_nat (List.length
                       (filter log_manager.is_sbp (map (log_manager.strip isspace) l)))))
          (seq 1 (List.length
                    (filter log_manager.is_sbp (map (log_manager.strip isspace) l)))) /\
    log_manager.removed evs = [].
Proof.
  intros E. unfold log_manager.download. rewrite E. eexists. split; [reflexivity|].
  rewrite sbp_loop_filter, app_nil_l.
  set (files := filter _ _).
  rewrite !removed_app, !progress_app, !reads_app, !written_app.
  rewrite written_download_loop, reads_download_loop, progress_download_loop,
    removed_download_loop, progress_from_one.
  cbn. rewrite !app_nil_r. auto.
Qed.

(** ** Further properties: the log manager *)

(** X12. The test [f.split('.')[-1] == 'sbp'] accepts exactly the names
    that end in [.sbp], and the name [sbp] itself. *)
Theorem is_sbp_spec (f : str) :
  log_manager.is_sbp f = true <->
  f = list_ascii_of_string "sbp" \/
  exists p, f = p ++ list_ascii_of_string ".sbp".
Proof. apply is_sbp_iff. Qed.

(** X13. [remove] deletes on the device exactly [log_path + "/" + f] for
    the stripped names [f] of the list that pass the test, in the order of
    the list, so never a name that neither ends in [.sbp] nor is [sbp]; the
    lines it prints count them from 1 to their number; it reads nothing
    and writes no local file.  When the list cannot be evaluated it does
    nothing. *)
Theorem remove_only_sbp (isspace : ascii -> bool)
    (literal_eval : str -> option (list str)) (log_path log_list : str) :
  match literal_eval log_list with
  | None => log_manager.remove isspace literal_eval log_path log_list = None
  | Some l =>
      let files := filter log_manager.is_sbp (map (log_manager.strip isspace) l) in
      exists evs,
        log_manager.remove isspace literal_eval log_path log_list = Some evs /\
        log_manager.removed evs = map (fun f => log_path ++ "/"%char :: f) files /\
        Forall (fun p => exists f,
                    p = log_path ++ "/"%char :: f /\
                    (f = list_ascii_of_string "sbp" \/
                     exists q, f = q ++ list_ascii_of_string ".sbp"))
               (log_manager.removed evs) /\
        log_manager.progress evs =
          map (fun k => (N.of_nat k, N.of_nat (List.length files)))
              (seq 1 (List.length files)) /\
        log_manager.reads evs = [] /\ log_manager.written evs = []
  end.
Proof.
  destruct (literal_eval log_list) as [l|] eqn:E.
  - intros files.
    destruct (remove_events isspace literal_eval log_path log_list l E)
      as (evs & H1 & H2 & H3 & H4 & H5).
    exists evs. repeat split; try assumption. rewrite H2.
    apply Forall_forall. intros p Hp. apply in_map_iff in Hp as (f & <- & Hf).
    exists f. split; [reflexivity|]. apply is_sbp_iff.
    apply filter_In in Hf. apply Hf.
  - unfold log_manager.remove. rewrite E. reflexivity.
Qed.

(** X14. [download] writes, for each stripped name [f] of the list that
    passes the test and in the order of the list, the local file
    [dest_path + "/" + f] with what the device returns for [log_path + f]
    (the two are joined without a separator); it counts the files from 1 to
    their number and removes nothing.  When the list cannot be evaluated it
    does nothing. *)
Theorem download_copies (isspace : ascii -> bool)
    (literal_eval : str -> option (list str)) (read : str -> str)
    (log_path log_list dest_path : str) :
  match literal_eval log_list with
  | None =>
      log_manager.download isspace literal_eval read log_path log_list dest_path
      = None
  | Some l =>
      let files := filter log_manager.is_sbp (map (log_manager.strip isspace) l) in
      exists evs,
        log_manager.download isspace literal_eval read log_path log_list dest_path
        = Some evs /\
        log_manager.written evs =
          map (fun f => (dest_path ++ "/"%char :: f, read (log_path ++ f))) files /\
        log_manager.reads evs = map (fun f => log_path ++ f) files /\
        log_manager.progress evs =
          map (fun k => (N.of_nat k, N.of_nat (List.length files)))
              (seq 1 (List.length files)) /\
        log_manager.removed evs = []
  end.
Proof.
  destruct (literal_eval log_list) as [l|] eqn:E.
  - intros files.
    destruct (download_events isspace literal_eval read log_path log_list
                dest_path l E) as (evs & H1 & H2 & H3 & H4 & H5).
    exists evs. repeat split; assumption.
  - unfold log_manager.download. rewrite E. reflexivity.
Qed.

Lemma listing_stripped isspace (listing : list str) :
  Forall (fun c => isspace c = false) (list_ascii_of_string ".sbp") ->
  Forall (fun f => log_manager.is_sbp f = true) listing ->
  filter log_manager.is_sbp (map (log_manager.strip isspace) listing) =
  map (log_manager.strip isspace) listing.
Proof.
  intros Hs H. apply filter_all. apply Forall_map.
  eapply Forall_impl; [|exact H]. intros f. apply strip_is_sbp. exact Hs.
Qed.

Lemma filter_Forall {A : Type} (f : A -> bool) (l : list A) :
  Forall (fun x => f x = true) (filter f l).
Proof. apply Forall_forall. intros x H. apply filter_In in H. apply H. Qed.

(** X15. [remove all]: when the text that [list] returns evaluates back to
    the listed names, and no character of [.sbp] counts as white space,
    [main] deletes, for every name [f] of the device directory that passes
    the test, the path [log_path + "/" + f.strip()], in directory order. *)
Theorem main_remove_all (isspace : ascii -> bool)
    (literal_eval : str -> option (list str)) (str_of_list : list str -> str)
    (readdir : str -> list str) (read : str -> str) (log_path dest : str) :
  Forall (fun c => isspace c = false) (list_ascii_of_string ".sbp") ->
  literal_eval (str_of_list (filter log_manager.is_sbp (readdir log_path))) =
    Some (filter log_manager.is_sbp (readdir log_path)) ->
  exists evs,
    log_manager.main isspace literal_eval str_of_list readdir read log_path
      (list_ascii_of_string "remove") (list_ascii_of_string "all") dest = Some evs /\
    log_manager.removed evs =
      map (fun f => log_path ++ "/"%char :: log_manager.strip isspace f)
          (filter log_manager.is_sbp (readdir log_path)).
Proof.
  intros Hs E. unfold log_manager.main, log_manager.list_.
  replace (log_manager.str_eqb (list_ascii_of_string "remove")
             (list_ascii_of_string "download")) with false by reflexivity.
  replace (log_manager.str_eqb (list_ascii_of_string "remove")
             (list_ascii_of_string "remove")) with true by reflexivity.
  replace (log_manager.str_eqb (list_ascii_of_string "all")
             (list_ascii_of_string "all")) with true by reflexivity.
  rewrite sbp_loop_filter, app_nil_l.
  destruct (remove_events isspace literal_eval log_path _ _ E)
    as (evs & -> & H2 & _).
  eexists. split; [reflexivity|].
  rewrite removed_app, H2, listing_stripped, map_map;
    [reflexivity | exact Hs | apply filter_Forall].
Qed.

(** X16. [download all]: under the same two conditions [main] writes, for
    every name [f] of the device directory that passes the test, the local
    file [dest + "/" + f.strip()] with what the device returns for
    [log_path + f.strip()], in directory order. *)
Theorem main_download_all (isspace : ascii -> bool)
    (literal_eval : str -> option (list str)) (str_of_list : list str -> str)
    (readdir : str -> list str) (read : str -> str) (log_path dest : str) :
  Forall (fun c => isspace c = false) (list_ascii_of_string ".sbp") ->
  literal_eval (str_of_list (filter log_manager.is_sbp (readdir log_path))) =
    Some (filter log_manager.is_sbp (readdir log_path)) ->
  exists evs,
    log_manager.main isspace literal_eval str_of_list readdir read log_path
      (list_ascii_of_string "download") (list_ascii_of_string "all") dest
      = Some evs /\
    log_manager.written evs =
      map (fun f => (dest ++ "/"%char :: log_manager.strip isspace f,
                     read (log_path ++ log_manager.strip isspace f)))
          (filter log_manager.is_sbp (readdir log_path)) /\
    log_manager.removed evs = [].
Proof.
  intros Hs E. unfold log_manager.main, log_manager.list_.
  replace (log_manager.str_eqb (list_ascii_of_string "download")
             (list_ascii_of_string "download")) with true by reflexivity.
  replace (log_manager.str_eqb (list_ascii_of_string "all")
             (list_ascii_of_string "all")) with true by reflexivity.
  rewrite sbp_loop_filter, app_nil_l.
  destruct (download_events isspace literal_eval read log_path _ dest _ E)
    as (evs & -> & H2 & _ & _ & H5).
  eexists. split; [reflexivity|].
  rewrite removed_app, written_app, H2, H5, listing_stripped, map_map;
    [split; reflexivity | exact Hs | apply filter_Forall].
Qed.

Lemma main_remove_all_witness :
  exists evs,
    log_manager.main py_isspace
      (fun _ => Some (filter log_manager.is_sbp sample_directory))
      (fun _ => []) (fun _ => sample_directory) (fun p => p)
      (list_ascii_of_string "/media/sda1")
      (list_ascii_of_string "remove") (list_ascii_of_string "all") [] = Some evs /\
    log_manager.removed evs =
      map (fun f => list_ascii_of_string "/media/sda1"
                    ++ "/"%char :: log_manager.strip py_isspace f)
          (filter log_manager.is_sbp sample_directory).
Proof.
  apply (main_remove_all py_isspace
           (fun _ => Some (filter log_manager.is_sbp sample_directory))
           (fun _ => []) (fun _ => sample_directory) (fun p => p));
    [repeat constructor | reflexivity].
Defined.

Lemma main_download_all_witness :
  exists evs,
    log_manager.main py_isspace
      (fun _ => Some (filter log_manager.is_sbp sample_directory))
      (fun _ => []) (fun _ => sample_directory) (fun p => p)
      (list_ascii_of_string "/media/sda1/")
      (list_ascii_of_string "download") (list_ascii_of_string "all")
      (list_ascii_of_string ".") = Some evs /\
    log_manager.written evs =
      map (fun f => (list_ascii_of_string "." ++ "/"%char
                       :: log_manager.strip py_isspace f,
                     list_ascii_of_string "/media/sda1/"
                       ++ log_manager.strip py_isspace f))
          (filter log_manager.is_sbp sample_directory) /\
    log_manager.removed evs = [].
Proof.
  apply (main_download_all py_isspace
           (fun _ => Some (filter log_manager.is_sbp sample_directory))
           (fun _ => []) (fun _ => sample_directory) (fun p => p));
    [repeat constructor | reflexivity].
Defined.

(** * The rate of the base messages in the output *)

Lemma gpstime_of_set_sender m s last :
  gpstime_of (set_sender m s) last = gpstime_of m last.
Proof. reflexivity. Qed.

Lemma truthy_gate g0 g1 brate :
  truthy (compare_gpstime_brate g0 g1 brate) = true ->
  compare_gpstime_brate g0 g1 brate = 1.
Proof.
  destruct (gate_bit g0 g1 brate) as [->| ->]; [reflexivity | discriminate].
Qed.

Lemma base_passing_gated brate l : forall LB,
  gated brate LB (map (fun m => set_sender m 0) (base_passing brate (0, 0) LB l)).
Proof.
  induction l as [|m l IH]; intros LB; simpl; [exact I|].
  destruct (py_in _ _ && _) eqn:E; [|apply IH].
  simpl. rewrite gpstime_of_set_sender. split; [|apply IH].
  apply andb_true_iff in E as [_ E]. apply truthy_gate. exact E.
Qed.

(** X17. The rate of the base side: when the base input is made of
    timestamped kinds, each base message of the output passes the gate
    against the base message emitted before it (it is of a later week, of
    the same time of week, or at least [brate] later in the same week), the
    first one against [(0, 0)]; this holds whatever the rover input. *)
Theorem base_output_gated (base rove : list Msg) (brate : number) :
  Forall (fun m => timestamped m = true) base ->
  gated brate (0, 0)
    (filter (fun m => sender m =? 0) (zip_json_generators base rove brate)).
Proof.
  intros Ht. unfold zip_json_generators, zip_trace.
  rewrite zip_loop_base_side; simpl.
  - apply base_passing_gated.
  - apply slots_ok_init.
  - eapply Forall_impl; [|exact Ht]. apply timestamped_self_timed.
Qed.

Lemma base_output_gated_witness :
  gated (Exact 20) (0, 0)
    (filter (fun m => sender m =? 0)
       (zip_json_generators
          [obs_msg 1 0 9; obs_msg 1 5 9; obs_msg 1 25 9; obs_msg 1 25 9;
           obs_msg 2 1 9]
          [obs_msg 1 3 7; obs_msg 1 30 7] (Exact 20))).
Proof.
  apply base_output_gated. repeat constructor.
Defined.

(** * Float separations *)

(** ** A float separation with an integer value *)

Lemma gate_float_exact (g0 g1 : GpsTime) (z : Z) :
  small g1 -> (Z.abs z <= 2 ^ 52)%Z ->
  compare_gpstime_brate g0 g1 (Float (finite (inject_Z z))) =
  compare_gpstime_brate g0 g1 (Exact (inject_Z z)).
Proof.
  unfold small. intros Hp Hz.
  assert (Hp' : tow g1 < 2 ^ 53) by (eapply N.lt_trans; [exact Hp | reflexivity]).
  assert (Hs : (Z.abs (Z.of_N (tow g1) + z) < 2 ^ 53)%Z).
  { assert (Z.of_N (tow g1) < 2 ^ 32)%Z
      by (change (2 ^ 32)%Z with (Z.of_N (2 ^ 32)); lia).
    lia. }
  assert (I : compare_gpstime_brate g0 g1 (Float (finite (inject_Z z))) = 1 <->
              compare_gpstime_brate g0 g1 (Exact (inject_Z z)) = 1).
  { rewrite !gate_cases, (py_ge_float_int _ _ _ Hp' Hs), py_ge_exact,
      <- inject_Z_plus, <- Zle_Qle. reflexivity. }
  destruct (gate_bit g0 g1 (Float (finite (inject_Z z)))) as [E1|E1],
           (gate_bit g0 g1 (Exact (inject_Z z))) as [E2|E2];
    rewrite E1, E2; try reflexivity; exfalso.
  - apply I in E1. congruence.
  - apply I in E2. congruence.
Qed.

Lemma gpstime_of_small m L : wire m -> small L -> small (gpstime_of m L).
Proof.
  intros (H1 & H2 & H3) HL. unfold gpstime_of, extract_gpstime.
  destruct (_ || _); [exact H1|].
  destruct (py_in _ _); [exact H2|].
  destruct (_ =? _); [exact H3|].
  destruct (_ || _); exact HL.
Qed.

Lemma pull_base_exact (z : Z) (gen : list Msg) : forall L LB,
  (Z.abs z <= 2 ^ 52)%Z -> small LB ->
  pull_base (Float (finite (inject_Z z))) L LB gen =
  pull_base (Exact (inject_Z z)) L LB gen.
Proof.
  induction gen as [|m gen IH]; intros L LB Hz HLB; simpl; [reflexivity|].
  rewrite extract_gpstime_defined, (gate_float_exact _ _ _ HLB Hz).
  rewrite (IH L LB Hz HLB). reflexivity.
Qed.

Lemma pull_base_wire brate (gen : list Msg) : forall L LB evs b lb g,
  pull_base brate L LB gen = (evs, b, lb, g) ->
  small L -> small LB -> Forall wire gen ->
  small lb /\ Forall wire g /\ (forall m, b = Got m -> wire m).
Proof.
  induction gen as [|m gen IH]; intros L LB evs b lb g; simpl.
  - intros [= <- <- <- <-] _ HLB _.
    split; [exact HLB | split; [constructor | discriminate]].
  - rewrite extract_gpstime_defined. intros E HL HLB Hw.
    inversion Hw as [|? ? Hm Hgen]; subst.
    destruct (py_in _ _ && _).
    + injection E as <- <- <- <-. split; [|split].
      * apply gpstime_of_small; assumption.
      * exact Hgen.
      * intros m' [= <-]. exact Hm.
    + destruct (pull_base brate L LB gen) as [[[e1 b1] l1] g1] eqn:E1.
      injection E as <- <- <- <-. eapply IH; eassumption.
Qed.

Lemma pull_rove_wire (gen : list Msg) : forall r g,
  pull_rove gen = (r, g) -> Forall wire gen ->
  Forall wire g /\ Forall wire (slot r).
Proof.
  induction gen as [|m gen IH]; intros r g; simpl.
  - intros [= <- <-] _. split; constructor.
  - intros E Hw. inversion Hw as [|? ? Hm Hgen]; subst.
    destruct (truthy (sender m) && _).
    + injection E as <- <-.
      split; [exact Hgen | simpl; constructor; [exact Hm | constructor]].
    + apply IH; assumption.
Qed.

Lemma zip_step_wire brate st evs st' :
  wire_state st -> zip_step brate st = (evs, Some st') -> wire_state st'.
Proof.
  intros (HL & HLB & Hbg & Hrg & Hbm & Hrm). unfold zip_step, fill_base, fill_rove.
  destruct st as [bg rg bm rm L LB]; simpl in *.
  assert (Hb : forall e b lb g,
             match bm with
             | Some m => ([], Got m, LB, bg)
             | None => pull_base brate L LB bg
             end = (e, b, lb, g) ->
             small lb /\ Forall wire g /\ (forall m, b = Got m -> wire m)).
  { intros e b lb g. destruct bm as [m|].
    - intros [= <- <- <- <-]. split; [exact HLB | split; [exact Hbg|]].
      intros m' [= <-]. inversion Hbm; assumption.
    - intros E. eapply pull_base_wire; eassumption. }
  assert (Hr : forall r g,
             match rm with
             | Some m => (Some m, rg)
             | None => pull_rove rg
             end = (r, g) -> Forall wire g /\ Forall wire (slot r)).
  { intros r g. destruct rm as [m|].
    - intros [= <- <-]. split; assumption.
    - intros E. eapply pull_rove_wire; eassumption. }
  destruct (match bm with Some _ => _ | None => _ end) as [[[e b] lb] g] eqn:Eb.
  destruct (match rm with Some _ => _ | None => _ end) as [r g'] eqn:Er.
  destruct (Hb _ _ _ _ eq_refl) as (Hlb & Hg & Hgot).
  destruct (Hr _ _ eq_refl) as (Hg' & Hslot).
  destruct b as [b| |]; destruct r as [r|]; try discriminate.
  - rewrite !extract_gpstime_defined.
    assert (Wb : wire b) by (apply Hgot; reflexivity).
    assert (Wr : wire r) by (inversion Hslot; assumption).
    destruct (_ =? 1); intros [= <- <-]; unfold wire_state; simpl;
      repeat split; try assumption; try constructor; try assumption;
      try constructor; apply gpstime_of_small; assumption.
  - intros [= <- <-]. unfold wire_state; simpl.
    repeat split; try assumption; constructor.
  - intros [= <- <-]. unfold wire_state; simpl.
    repeat split; try assumption; constructor.
Qed.

Lemma zip_step_exact (z : Z) st :
  (Z.abs z <= 2 ^ 52)%Z -> small (last_base_gpstime st) ->
  zip_step (Float (finite (inject_Z z))) st = zip_step (Exact (inject_Z z)) st.
Proof.
  intros Hz HLB. unfold zip_step, fill_base.
  destruct (base_msg st); [reflexivity|].
  rewrite (pull_base_exact z _ _ _ Hz HLB). reflexivity.
Qed.

Lemma zip_loop_exact (z : Z) : forall st,
  (Z.abs z <= 2 ^ 52)%Z -> wire_state st ->
  zip_loop (Float (finite (inject_Z z))) st = zip_loop (Exact (inject_Z z)) st.
Proof.
  apply (zip_loop_ind (Exact (inject_Z z)) (fun st => _ -> _ -> _ = _)).
  intros st IH Hz Hw.
  rewrite (zip_loop_step (Float _)), (zip_loop_step (Exact _)).
  rewrite (zip_step_exact z st Hz) by apply Hw.
  destruct (zip_step (Exact (inject_Z z)) st) as [evs [st'|]] eqn:E; [|reflexivity].
  f_equal. apply (IH _ _ eq_refl Hz). eapply zip_step_wire; eassumption.
Qed.

Lemma wire_state_init base rove :
  Forall wire base -> Forall wire rove ->
  wire_state (mkState base rove None None (0, 0) (0, 0)).
Proof.
  intros Hb Hr. unfold wire_state; simpl.
  repeat split; try assumption; try constructor; reflexivity.
Qed.

(** X18. A float separation with an integer value up to [2^52] runs the
    zipper exactly as the integer does, on messages whose times of week
    fit the 32 bits of the wire format: the same calls, the same output. *)
Theorem float_separation_exact (base rove : list Msg) (z : Z) :
  (Z.abs z <= 2 ^ 52)%Z ->
  Forall wire base -> Forall wire rove ->
  zip_trace base rove (Float (finite (inject_Z z))) =
    zip_trace base rove (Exact (inject_Z z)) /\
  zip_json_generators base rove (Float (finite (inject_Z z))) =
    zip_json_generators base rove (Exact (inject_Z z)).
Proof.
  intros Hz Hb Hr.
  assert (E : zip_trace base rove (Float (finite (inject_Z z))) =
              zip_trace base rove (Exact (inject_Z z)))
    by (apply zip_loop_exact; [exact Hz | apply wire_state_init; assumption]).
  split; [exact E|]. unfold zip_json_generators. rewrite E. reflexivity.
Qed.

Lemma float_separation_exact_witness :
  zip_trace [obs_msg 1 0 9; obs_msg 1 5 9; base_pos_llh 9; obs_msg 1 20 9]
            [obs_msg 1 7 7; glo_biases 7] (Float (finite (inject_Z 20))) =
    zip_trace [obs_msg 1 0 9; obs_msg 1 5 9; base_pos_llh 9; obs_msg 1 20 9]
              [obs_msg 1 7 7; glo_biases 7] (Exact (inject_Z 20)) /\
  zip_json_generators [obs_msg 1 0 9; obs_msg 1 5 9; base_pos_llh 9; obs_msg 1 20 9]
                      [obs_msg 1 7 7; glo_biases 7] (Float (finite (inject_Z 20))) =
    zip_json_generators [obs_msg 1 0 9; obs_msg 1 5 9; base_pos_llh 9; obs_msg 1 20 9]
                        [obs_msg 1 7 7; glo_biases 7] (Exact (inject_Z 20)).
Proof.
  apply float_separation_exact;
    [discriminate | repeat constructor | repeat constructor].
Defined.

(** ** The separation [main] computes *)

Lemma main_brate_divisor (r : Z) :
  (0 < r)%Z -> (r | 1000)%Z ->
  main_brate (float_of_decimal (inject_Z r)) =
  Some (Float (finite (inject_Z (1000 / r)))).
Proof.
  intros Hr Hd.
  assert (Hle : (r <= 1000)%Z) by (apply Z.divide_pos_le; [lia | exact Hd]).
  unfold float_of_decimal.
  rewrite (round64_int (inject_Z r) r); [|reflexivity | lia].
  unfold main_brate.
  destruct (Qeq_bool (inject_Z r) 0) eqn:E.
  - apply Qeq_bool_iff in E. unfold Qeq in E. simpl in E. lia.
  - rewrite (round64_int _ (1000 / r)); [reflexivity | |].
    + destruct Hd as [k Hk]. change 1000%Q with (inject_Z 1000).
      rewrite Hk, Z.div_mul by lia.
      rewrite inject_Z_mult. field.
      intros H. unfold Qeq in H. simpl in H. lia.
    + assert (0 <= 1000 / r <= 1000)%Z; [|lia].
      split; [apply Z.div_pos; lia | apply Z.div_le_upper_bound; nia].
Qed.

(** X19. From the command line to the merge: for a rate that is a positive
    divisor of 1000, [main] passes the float whose value is the integer
    [1000 / rate], and on messages whose times of week fit the wire format
    the zipper then emits what it emits for that integer. *)
Theorem main_rate_exact (base rove : list Msg) (rate : Z) :
  (0 < rate)%Z -> (rate | 1000)%Z ->
  Forall wire base -> Forall wire rove ->
  exists brate,
    main_brate (float_of_decimal (inject_Z rate)) = Some brate /\
    brate = Float (finite (inject_Z (1000 / rate))) /\
    zip_json_generators base rove brate =
    zip_json_generators base rove (Exact (inject_Z (1000 / rate))).
Proof.
  intros Hr Hd Hb Hv. eexists. split; [apply main_brate_divisor; assumption|].
  split; [reflexivity|]. unfold zip_json_generators, zip_trace.
  rewrite zip_loop_exact; [reflexivity | | apply wire_state_init; assumption].
  assert (0 <= 1000 / rate <= 1000)%Z; [|lia].
  assert (Hle : (rate <= 1000)%Z) by (apply Z.divide_pos_le; [lia | exact Hd]).
  split; [apply Z.div_pos; lia | apply Z.div_le_upper_bound; nia].
Qed.

Lemma main_rate_exact_witness :
  exists brate,
    main_brate (float_of_decimal (inject_Z 50)) = Some brate /\
    brate = Float (finite (inject_Z (1000 / 50))) /\
    zip_json_generators (obs_every5 1 9 12) [obs_msg 1 7 7; obs_msg 1 33 7] brate =
    zip_json_generators (obs_every5 1 9 12) [obs_msg 1 7 7; obs_msg 1 33 7]
                        (Exact (inject_Z (1000 / 50))).
Proof.
  apply (main_rate_exact (obs_every5 1 9 12) [obs_msg 1 7 7; obs_msg 1 33 7] 50);
    [reflexivity | exists 20%Z; reflexivity | repeat constructor | repeat constructor].
Defined.

(** ** The gate on floats *)

(** X20. The gate is monotone in a float separation too: a message
    accepted with a finite float separation is accepted with any smaller
    one, whatever the rounding of the two sums. *)
Theorem gate_monotone_float (g0 g1 : GpsTime) (brate brate' : Q) :
  (brate' <= brate)%Q ->
  compare_gpstime_brate g0 g1 (Float (finite brate)) = 1 ->
  compare_gpstime_brate g0 g1 (Float (finite brate')) = 1.
Proof.
  intros Hb. rewrite !gate_cases.
  intros [H|[Hw [H|H]]]; [auto | auto |].
  right. split; [exact Hw|]. right. cbn [py_add py_ge] in *.
  destruct (float_of_int (Z.of_N (tow g1))) as [|s|x]; cbn [fadd] in *;
    [exact H | exact H |].
  apply int_ge_float_iff. apply int_ge_float_iff in H.
  apply (round64_le_int_mono (x + brate)); [apply Qplus_le_r; exact Hb | lia | exact H].
Qed.

Lemma gate_monotone_float_witness :
  compare_gpstime_brate (1, 30) (1, 9) (Float (finite (1 # 10))) = 1.
Proof.
  apply (gate_monotone_float (1, 30) (1, 9) (41 # 2) (1 # 10));
    [discriminate | vm_compute; reflexivity].
Defined.

(** X21. A float separation that is not positive (a negative number, a
    zero, minus infinity) switches the gate off like an exact one, for a
    base input of timestamped kinds in time order whose times of week are
    below [2^53]: every base message of a pass-through kind reaches the
    output. *)
Theorem open_gate_keeps_base_float (base rove : list Msg) (brate : float) :
  nonpositive (Float brate) ->
  Forall (fun m => tow (gpstime_of m (0, 0)) < 2 ^ 53) base ->
  Forall (fun m => timestamped m = true) base ->
  Sorted gps_le (thread_times (0, 0) base) ->
  filter (fun m => sender m =? 0) (zip_json_generators base rove (Float brate)) =
  map (fun m => set_sender m 0)
      (filter (fun m => py_in (msg_type m) msgs_filter) base).
Proof.
  intros Hb Hv. apply open_gate_base_side; [exact Hb | exact Hv].
Qed.

Lemma open_gate_keeps_base_float_witness :
  filter (fun m => sender m =? 0)
    (zip_json_generators
       [obs_msg 1 0 9; obs_msg 1 5 9; ephemeris_qzss 9 (1, 5); obs_msg 1 5 9]
       [obs_msg 1 3 7] (Float (finite (- (1 # 3))))) =
  map (fun m => set_sender m 0)
    (filter (fun m => py_in (msg_type m) msgs_filter)
       [obs_msg 1 0 9; obs_msg 1 5 9; ephemeris_qzss 9 (1, 5); obs_msg 1 5 9]).
Proof.
  apply open_gate_keeps_base_float;
    [ discriminate
    | repeat constructor
    | repeat constructor
    | repeat (constructor; try (unfold gps_le; simpl; lia)) ].
Defined.

(** X22. Splitting then zipping with the separation of [main], a float:
    when it is not positive and the messages of originator 0 are of
    timestamped kinds, in time order, with times of week below [2^53], the
    output holds exactly the messages of pass-through kinds of the log,
    each once. *)
Theorem split_then_zip_float (log : list Msg) (brate : float) :
  nonpositive (Float brate) ->
  Forall (fun m => tow (gpstime_of m (0, 0)) < 2 ^ 53)
         (filter (fun m => sender m =? 0) log) ->
  Forall (fun m => timestamped m = true) (filter (fun m => sender m =? 0) log) ->
  Sorted gps_le (thread_times (0, 0) (filter (fun m => sender m =? 0) log)) ->
  Permutation
    (zip_json_generators (filter (fun m => sender m =? 0) log)
                         (filter (fun m => negb (sender m =? 0)) log) (Float brate))
    (filter (fun m => py_in (msg_type m) msgs_filter) log).
Proof.
  intros Hb Hv Ht Hs. apply split_zip_perm.
  apply open_gate_base_side; assumption.
Qed.

Lemma split_then_zip_float_witness :
  Permutation
    (zip_json_generators
       (filter (fun m => sender m =? 0)
          [obs_msg 1 0 0; obs_msg 1 0 7; heartbeat 7; obs_msg 1 5 0; glo_biases 7])
       (filter (fun m => negb (sender m =? 0))
          [obs_msg 1 0 0; obs_msg 1 0 7; heartbeat 7; obs_msg 1 5 0; glo_biases 7])
       (Float (inf true)))
    (filter (fun m => py_in (msg_type m) msgs_filter)
       [obs_msg 1 0 0; obs_msg 1 0 7; heartbeat 7; obs_msg 1 5 0; glo_biases 7]).
Proof.
  apply split_then_zip_float;
    [ reflexivity
    | repeat constructor
    | repeat constructor
    | repeat (constructor; try (unfold gps_le; simpl; lia)) ].
Defined.

(** ** Rate gating with the float of [main] *)

Lemma obs_from_wire w s n : forall k,
  5 * N.of_nat (k + n) <= 2 ^ 32 -> Forall wire (obs_from w s k n).
Proof.
  unfold obs_from. induction n as [|n IH]; intros k H; cbn [seq map]; [constructor|].
  assert (Hk : 5 * N.of_nat k < 2 ^ 32) by lia.
  constructor.
  - unfold wire, small, tow, obs_msg. cbn [header_t common_toe t_nmct snd].
    split; [exact Hk | split; reflexivity].
  - apply IH. replace (S k + n)%nat with (k + S n)%nat by lia. exact H.
Qed.

(** X23. Rate gating as [main] runs it: with the float separation 20.0
    (the rate 50), a base input of observations of one week at [tow] = 0,
    5, 10, ... within the 32 bits of the wire format and a rover input
    within them too, the base messages that reach the output are exactly
    the ones at [tow] = 0, 20, 40, ... *)
Theorem base_rate_gating_float (w s : N) (n : nat) (rove : list Msg) :
  5 * N.of_nat n <= 2 ^ 32 ->
  Forall wire rove ->
  main_brate (float_of_decimal 50) = Some (Float (finite 20)) /\
  filter (fun m => sender m =? 0)
         (zip_json_generators (obs_every5 w s n) rove (Float (finite 20))) =
  map (fun m => set_sender m 0) (filter on_20_grid (obs_every5 w s n)).
Proof.
  intros Hn Hr. split; [vm_compute; reflexivity|].
  unfold zip_json_generators, zip_trace.
  rewrite (zip_loop_exact 20);
    [|discriminate | apply wire_state_init; [apply obs_from_wire; exact Hn | exact Hr]].
  rewrite zip_loop_base_side; simpl.
  - rewrite obs_every5_passing. reflexivity.
  - apply slots_ok_init.
  - apply obs_from_self_timed.
Qed.

Lemma base_rate_gating_float_witness :
  main_brate (float_of_decimal 50) = Some (Float (finite 20)) /\
  filter (fun m => sender m =? 0)
         (zip_json_generators (obs_every5 1 9 10) [obs_msg 1 7 7; glo_biases 7]
                              (Float (finite 20))) =
  map (fun m => set_sender m 0) (filter on_20_grid (obs_every5 1 9 10)).
Proof.
  apply base_rate_gating_float; [vm_compute; discriminate | repeat constructor].
Defined.
